(** * Def.h: stations, candidate positions and signals

    A shallow embedding of the classes of [src/Def.h] ([Station],
    [Stations], [PositionsList], [Signal]) and the properties of them that
    the specification states.

    Numbers are modelled as the code has them.  A [double] is an IEEE 754
    binary64 value and a [long double] is the x87 extended format of the
    x86-64 System V ABI (64-bit significand, 15-bit exponent); both are
    values of [spec_float], the arithmetic being the one of [SpecFloat]
    (round to nearest, ties to even).  An [int] is a 32-bit two's complement
    integer, written out as a wrap-around on [Z].  A [std::vector] is a
    list, [push_back] appends at the end, and [at] is a lookup that fails
    (the [std::out_of_range] exception) outside of the vector.  The
    [std::cout] lines are modelled by the values that they print. *)

From Stdlib Require Import ZArith List Bool Lia.
From Stdlib Require Import Floats.SpecFloat.
Import ListNotations.

Local Open Scope Z_scope.

(** ** Machine numbers *)

Module Float.

Section Format.
Variables prec emax : Z.

(** Conversion of a floating-point value to the format [prec], [emax]:
    exact when the value fits, rounded otherwise. *)
Definition SFconv (v : spec_float) : spec_float :=
  match v with
  | S754_finite s m e => binary_round prec emax s m e
  | _ => v
  end.

(** Conversion of an integer to the format [prec], [emax]. *)
Definition SFofZ (n : Z) : spec_float :=
  binary_normalize prec emax n 0 false.

(** Conversion of a floating-point value to an integer, truncating
    towards zero; undefined on infinities and NaN. *)
Definition SFtoZ (v : spec_float) : option Z :=
  match v with
  | S754_zero _ => Some 0
  | S754_finite s m e =>
      Some (cond_Zopp s
              (match e with
               | Z0 => Zpos m
               | Zpos p => Zpos m * Z.pow_pos 2 p
               | Zneg p => Zpos m / Z.pow_pos 2 p
               end))
  | _ => None
  end.
End Format.

(** [v < 0], [v] a number and not a zero. *)
Definition is_negative (v : spec_float) : bool :=
  SFltb v (S754_zero false).

(** [0 < v], [v] a number and not a zero. *)
Definition is_positive (v : spec_float) : bool :=
  SFltb (S754_zero false) v.

(** [v] is a zero or a finite number: neither an infinity nor NaN. *)
Definition is_finite (v : spec_float) : bool :=
  match v with
  | S754_zero _ | S754_finite _ _ _ => true
  | _ => false
  end.

(** *** [double] *)

Definition dprec : Z := 53.
Definition demax : Z := 1024.

Definition double : Type := spec_float.

Definition dadd : double -> double -> double := SFadd dprec demax.
Definition dmul : double -> double -> double := SFmul dprec demax.
Definition ddiv : double -> double -> double := SFdiv dprec demax.
Definition dsqrt : double -> double := SFsqrt dprec demax.
Definition deqb : double -> double -> bool := SFeqb.
Definition dltb : double -> double -> bool := SFltb.
Definition dleb : double -> double -> bool := SFleb.
Definition double_of_Z : Z -> double := SFofZ dprec demax.
Definition dvalid : double -> bool := valid_binary dprec demax.

(** *** [long double] *)

Definition lprec : Z := 64.
Definition lemax : Z := 16384.

Definition ldouble : Type := spec_float.

Definition ladd : ldouble -> ldouble -> ldouble := SFadd lprec lemax.
Definition lsub : ldouble -> ldouble -> ldouble := SFsub lprec lemax.
Definition lmul : ldouble -> ldouble -> ldouble := SFmul lprec lemax.
Definition ldiv : ldouble -> ldouble -> ldouble := SFdiv lprec lemax.
Definition lsqrt : ldouble -> ldouble := SFsqrt lprec lemax.
Definition leqb : ldouble -> ldouble -> bool := SFeqb.
Definition lltb : ldouble -> ldouble -> bool := SFltb.
Definition lleb : ldouble -> ldouble -> bool := SFleb.
Definition ldouble_of_Z : Z -> ldouble := SFofZ lprec lemax.
Definition ldouble_to_Z : ldouble -> option Z := SFtoZ.
Definition lvalid : ldouble -> bool := valid_binary lprec lemax.

(** *** Conversions between the two *)

Definition ldouble_of_double : double -> ldouble := SFconv lprec lemax.
Definition double_of_ldouble : ldouble -> double := SFconv dprec demax.

(** *** [int] *)

Definition INT_MAX : Z := 2147483647.
Definition INT_MIN : Z := -2147483648.

Definition in_int (n : Z) : Prop := INT_MIN <= n <= INT_MAX.

(** Conversion of an unsigned size to [int]: the value modulo [2^32]. *)
Definition int_of_size (n : nat) : Z :=
  (Z.of_nat n + 2147483648) mod 4294967296 - 2147483648.

(** [v.at(i)] with [i] an [int]: [i] is converted to [size_t], so that a
    negative index is out of range like one that is too large. *)
Definition at_ {A : Type} (v : list A) (i : Z) : option A :=
  if i <? 0 then None else nth_error v (Z.to_nat i).

(** The unqualified call [sqrt(v)] on a [long double] [v].  Which function
    it names depends on the declarations that are visible where [Def.h] is
    included: the C function [double sqrt(double)], reached through two
    conversions, or the overload [sqrt(long double)] of [<cmath>]. *)
Inductive sqrt_overload : Type :=
| sqrt_of_double
| sqrt_of_long_double.

Definition sqrt (o : sqrt_overload) (v : ldouble) : ldouble :=
  match o with
  | sqrt_of_double => ldouble_of_double (dsqrt (double_of_ldouble v))
  | sqrt_of_long_double => lsqrt v
  end.

(** *** Exact values

    Every number of a format is a whole number of units of [2^emin], the
    smallest positive number of the format: [SFunits] is that whole number
    (0 for an infinity and for NaN, which have no value).  The exponent of a
    number of the format is at least [emin]. *)
Definition SFunits (prec emax : Z) (v : spec_float) : Z :=
  match v with
  | S754_finite s m e => cond_Zopp s (Zpos m * 2 ^ (e - emin prec emax))
  | _ => 0
  end.

Definition SFaligned (prec emax : Z) (v : spec_float) : Prop :=
  match v with
  | S754_finite _ _ e => emin prec emax <= e
  | _ => True
  end.

(** The value of a [long double] in units of [2^-16445]. *)
Definition lunits : ldouble -> Z := SFunits lprec lemax.

(** *** The order of the comparisons

    [SFcompare] orders the numbers as the triples below are ordered, first
    component first: the negative infinity, the negative numbers, the zeros,
    the positive numbers, the positive infinity.  NaN has no place. *)
Definition SFkey (v : spec_float) : option (Z * Z * Z) :=
  match v with
  | S754_nan => None
  | S754_infinity true => Some (-2, 0, 0)
  | S754_finite true m e => Some (-1, - e, Zneg m)
  | S754_zero _ => Some (0, 0, 0)
  | S754_finite false m e => Some (1, e, Zpos m)
  | S754_infinity false => Some (2, 0, 0)
  end.

Definition key_compare (a b : Z * Z * Z) : comparison :=
  let '(a1, a2, a3) := a in
  let '(b1, b2, b3) := b in
  match a1 ?= b1 with
  | Eq => match a2 ?= b2 with
          | Eq => a3 ?= b3
          | c => c
          end
  | c => c
  end.

End Float.

Import Float.

(** ** [class Station] *)

Module Station.

Record Station : Type := Build
  { x : double;      (* Coordinate x. *)
    y : double;      (* Coordinate y. *)
    z : double;      (* Coordinate z. *)
    t : ldouble;     (* Time of receiving signal. *)
    r : double;      (* Distance of vehicle from the station. *)
    dt : ldouble;    (* Receive time minus send time. *)
    delay : double   (* Delay of given signal. *) }.

(** The constructors leave some members without an initial value; such a
    member keeps what its storage held before, here the corresponding
    member of [raw]. *)

(** [Station( ax, ay, az, at )] *)
Definition Station_at (raw : Station) (ax ay az : double) (at_ : ldouble)
  : Station :=
  {| x := ax; y := ay; z := az; t := at_;
     r := r raw; dt := dt raw; delay := delay raw |}.

(** [Station( ax, ay, az, at0, aR, aDelay )]: [at0] is not used, and
    [aR], a [long double], initialises the [double] member [r]. *)
Definition Station_aR (raw : Station) (ax ay az : double)
    (at0 aR : ldouble) (aDelay : double) : Station :=
  {| x := ax; y := ay; z := az; t := t raw;
     r := double_of_ldouble aR; dt := dt raw; delay := aDelay |}.

(** [Station( vec )] *)
Definition Station_vec (raw : Station) (vec : list double)
  : option Station :=
  match at_ vec 0, at_ vec 1, at_ vec 2, at_ vec 3 with
  | Some v0, Some v1, Some v2, Some v3 =>
      Some {| x := v0; y := v1; z := v2; t := t raw;
              r := v3; dt := dt raw; delay := delay raw |}
  | _, _, _, _ => None
  end.

Definition clight : double := double_of_Z 299792458.

Definition setR (s : Station) (aT0 : ldouble) : Station :=
  let dt' := lsub (t s) aT0 in
  {| x := x s; y := y s; z := z s; t := t s;
     r := double_of_ldouble (lmul dt' (ldouble_of_double clight));
     dt := dt';
     delay := delay s |}.

Definition getX (s : Station) : double := x s.
Definition getY (s : Station) : double := y s.
Definition getZ (s : Station) : double := z s.
Definition getR (s : Station) : double := r s.
Definition getDelay (s : Station) : double := delay s.

Definition stationToVector (s : Station) : list double :=
  [x s; y s; z s; r s].

End Station.

(** ** The line of delay statistics *)

(** Both [printDelayStats] write one line: the satellite, the timestamp and
    three numbers, in this order: [sumDelay / size], [minDelay],
    [maxDelay]. *)
Record DelayStats : Type := Build_DelayStats
  { stats_satId : Z;
    stats_timestamp : spec_float;
    stats_mean : double;
    stats_min : double;
    stats_max : double }.

(** The three local variables of the loop. *)
Record DelayAcc : Type := Build_DelayAcc
  { minDelay : double;
    maxDelay : double;
    sumDelay : double }.

(** [double minDelay = 100, maxDelay = 0, sumDelay = 0;] *)
Definition delay_init : DelayAcc :=
  {| minDelay := double_of_Z 100;
     maxDelay := double_of_Z 0;
     sumDelay := double_of_Z 0 |}.

(** The body of the loop, the same in both classes. *)
Definition delay_step (acc : DelayAcc) (current : double) : DelayAcc :=
  let sum' := dadd (sumDelay acc) current in
  let max' := if dltb (maxDelay acc) current then current else maxDelay acc in
  let min' := if dltb current (minDelay acc) then current else minDelay acc in
  {| minDelay := min'; maxDelay := max'; sumDelay := sum' |}.

Definition delay_loop (delays : list double) : DelayAcc :=
  fold_left delay_step delays delay_init.

(** ** [class Stations] *)

Module Stations.

Record Stations : Type := Build
  { mStations : list Station.Station;
    mT : ldouble }.

(** [Stations()]: [mT] has no initial value. *)
Definition Stations_ (raw_mT : ldouble) : Stations :=
  {| mStations := []; mT := raw_mT |}.

Definition addStation (ss : Stations) (aStation : Station.Station)
  : Stations :=
  {| mStations := mStations ss ++ [aStation]; mT := mT ss |}.

(** [addStation( ax, ay, az, at0, aR )] *)
Definition addStation_aR (raw : Station.Station) (ss : Stations)
    (ax ay az : double) (at0 aR : ldouble) : Stations :=
  addStation ss (Station.Station_aR raw ax ay az at0 aR (double_of_Z 0)).

Definition addStations (raw : Station.Station) (ss : Stations)
    (ax ay az : double) (at_ : ldouble) : Stations :=
  addStation ss (Station.Station_at raw ax ay az at_).

Definition setTime (ss : Stations) (aT : ldouble) : Stations :=
  {| mStations := mStations ss; mT := aT |}.

Definition size (ss : Stations) : Z := int_of_size (length (mStations ss)).

Definition getStation (ss : Stations) (iStationNb : Z)
  : option Station.Station :=
  at_ (mStations ss) iStationNb.

(** The lines that [printStations] writes, one per station. *)
Definition printStations (ss : Stations)
  : list (double * double * double * double) :=
  map (fun s => (Station.getX s, Station.getY s, Station.getZ s,
                 Station.getR s))
      (mStations ss).

Definition printDelayStats (ss : Stations) (aSatId : Z)
    (aTimestamp : double) : DelayStats :=
  let acc := delay_loop (map Station.getDelay (mStations ss)) in
  {| stats_satId := aSatId;
     stats_timestamp := aTimestamp;
     stats_mean :=
       ddiv (sumDelay acc) (double_of_Z (Z.of_nat (length (mStations ss))));
     stats_min := minDelay acc;
     stats_max := maxDelay acc |}.

Definition clear (ss : Stations) : Stations :=
  {| mStations := []; mT := mT ss |}.

End Stations.

(** ** [Position] and [class PositionsList] *)

Module PositionsList.

(** [typedef std::array< long double, 5 > Position;]
    xs, ys, zs, rs from Apollonius, combination id. *)
Record Position : Type := Build_Position
  { p0 : ldouble; p1 : ldouble; p2 : ldouble; p3 : ldouble; p4 : ldouble }.

(** [aPosition.at(k)] *)
Definition Position_at (p : Position) (k : Z) : option ldouble :=
  at_ [p0 p; p1 p; p2 p; p3 p; p4 p] k.

Record PositionsList : Type := Build
  { mPositions : list Position }.

(** [PositionsList()] *)
Definition PositionsList_ : PositionsList := {| mPositions := [] |}.

(** [PositionsList( aPosition )] *)
Definition PositionsList_of (aPosition : Position) : PositionsList :=
  {| mPositions := [aPosition] |}.

Definition addPosition (pl : PositionsList) (aPosition : Position)
  : PositionsList :=
  {| mPositions := mPositions pl ++ [aPosition] |}.

(** [addPosition( aPosVec, combSt )]: the three branches on the size of
    [aPosVec]; [combSt] is not used.  A vector of fewer than three numbers
    makes [at(2)] throw and nothing is added. *)
Definition addPosition_vec (pl : PositionsList) (aPosVec : list ldouble)
    (combSt : list Z) : option PositionsList :=
  let n := length aPosVec in
  if Nat.eqb n 5 then
    match at_ aPosVec 0, at_ aPosVec 1, at_ aPosVec 2,
          at_ aPosVec 3, at_ aPosVec 4 with
    | Some v0, Some v1, Some v2, Some v3, Some v4 =>
        Some (addPosition pl (Build_Position v0 v1 v2 v3 v4))
    | _, _, _, _, _ => None
    end
  else if Nat.ltb 3 n then
    match at_ aPosVec 0, at_ aPosVec 1, at_ aPosVec 2, at_ aPosVec 3 with
    | Some v0, Some v1, Some v2, Some v3 =>
        Some (addPosition pl (Build_Position v0 v1 v2 v3 (ldouble_of_Z 0)))
    | _, _, _, _ => None
    end
  else
    match at_ aPosVec 0, at_ aPosVec 1, at_ aPosVec 2 with
    | Some v0, Some v1, Some v2 =>
        Some (addPosition pl
                (Build_Position v0 v1 v2 (ldouble_of_Z 0) (ldouble_of_Z 0)))
    | _, _, _ => None
    end.

(** [addPositions( std::vector< Position > )] *)
Definition addPositions (pl : PositionsList) (aPositions : list Position)
  : PositionsList :=
  fold_left addPosition aPositions pl.

Definition getPosition (pl : PositionsList) (aIndex : Z) : option Position :=
  at_ (mPositions pl) aIndex.

Definition size (pl : PositionsList) : Z :=
  int_of_size (length (mPositions pl)).

(** [addPositions( PositionsList aList )]: [aList] is a copy, and the loop
    runs [i] from 0 while [i < aList.size()], an [int]; no turn is taken
    when that [int] is not positive. *)
Definition addPositions_from (pl aList : PositionsList)
  : option PositionsList :=
  fold_left
    (fun acc i =>
       match acc with
       | Some a =>
           match getPosition aList (Z.of_nat i) with
           | Some p => Some (addPosition a p)
           | None => None
           end
       | None => None
       end)
    (seq 0 (Z.to_nat (size aList))) (Some pl).

(** [mPositions.at(aIndex).at(k)] *)
Definition coordinate (k : Z) (pl : PositionsList) (aIndex : Z)
  : option ldouble :=
  match at_ (mPositions pl) aIndex with
  | Some p => Position_at p k
  | None => None
  end.

Definition getX : PositionsList -> Z -> option ldouble := coordinate 0.
Definition getY : PositionsList -> Z -> option ldouble := coordinate 1.
Definition getZ : PositionsList -> Z -> option ldouble := coordinate 2.
Definition getR : PositionsList -> Z -> option ldouble := coordinate 3.
Definition getCombId : PositionsList -> Z -> option ldouble := coordinate 4.

(** Each of the six accessors can throw; whichever does ends the call, and
    the distance is computed when none does. *)
Definition getDistance (o : sqrt_overload) (pl : PositionsList)
    (aIndexFirst aIndexSecond : Z) : option ldouble :=
  match getX pl aIndexFirst, getX pl aIndexSecond with
  | Some x1, Some x2 =>
      let dx := lsub x1 x2 in
      match getY pl aIndexFirst, getY pl aIndexSecond with
      | Some y1, Some y2 =>
          let dy := lsub y1 y2 in
          match getZ pl aIndexFirst, getZ pl aIndexSecond with
          | Some z1, Some z2 =>
              let dz := lsub z1 z2 in
              Some (sqrt o (ladd (ladd (lmul dx dx) (lmul dy dy))
                                 (lmul dz dz)))
          | _, _ => None
          end
      | _, _ => None
      end
  | _, _ => None
  end.

(** The lines that [printPositions] writes, one per position. *)
Definition printPositions (pl : PositionsList)
  : list (ldouble * ldouble * ldouble) :=
  map (fun p => (p0 p, p1 p, p2 p)) (mPositions pl).

(** The three local variables [x], [y], [z] of [printAveragePosition]. *)
Definition average_step (positionsNb : Z)
    (acc : ldouble * ldouble * ldouble) (p : Position)
  : ldouble * ldouble * ldouble :=
  let '(x, y, z) := acc in
  let n := ldouble_of_Z positionsNb in
  (ladd x (ldiv (p0 p) n), ladd y (ldiv (p1 p) n), ladd z (ldiv (p2 p) n)).

(** The three numbers that [printAveragePosition] writes. *)
Definition printAveragePosition (pl : PositionsList)
  : ldouble * ldouble * ldouble :=
  let positionsNb := int_of_size (length (mPositions pl)) in
  fold_left (average_step positionsNb) (mPositions pl)
    (ldouble_of_Z 0, ldouble_of_Z 0, ldouble_of_Z 0).

End PositionsList.

(** ** [class Signal] *)

Module Signal.

(** [std::tuple< double, double, double, double, double >] *)
Record tuple5 : Type := make_tuple
  { get0 : double; get1 : double; get2 : double;
    get3 : double; get4 : double }.

Record Signal : Type := Build
  { mSatId : Z;
    mTimestamp : ldouble;
    mGroundStations : list tuple5 }.

(** [Signal( aSatId, aTimestamp )] *)
Definition Signal_ (aSatId : Z) (aTimestamp : ldouble) : Signal :=
  {| mSatId := aSatId; mTimestamp := aTimestamp; mGroundStations := [] |}.

Definition push_back (sg : Signal) (g : tuple5) : Signal :=
  {| mSatId := mSatId sg; mTimestamp := mTimestamp sg;
     mGroundStations := mGroundStations sg ++ [g] |}.

(** [addGroundStation( ax, ay, az, ar )] *)
Definition addGroundStation (sg : Signal) (ax ay az ar : double) : Signal :=
  push_back sg (make_tuple ax ay az ar (double_of_Z 0)).

Definition clight : double := double_of_Z 299792458.

(** [addGroundStation( ax, ay, az, at0, adt, aDelay )]: [at0] is not
    used. *)
Definition addGroundStation_dt (sg : Signal) (ax ay az : double)
    (at0 : ldouble) (adt aDelay : double) : Signal :=
  let r := dmul clight adt in
  push_back sg (make_tuple ax ay az r aDelay).

(** [convertStationToSignal( aStations )]: the stations are appended to
    [aStations], which is passed by reference; the result is its new
    value. *)
Definition convertStationToSignal (raw : Station.Station) (sg : Signal)
    (aStations : Stations.Stations) : Stations.Stations :=
  fold_left
    (fun ss it =>
       Stations.addStation ss
         (Station.Station_aR raw (get0 it) (get1 it) (get2 it)
            (mTimestamp sg) (ldouble_of_double (get3 it)) (get4 it)))
    (mGroundStations sg) aStations.

Definition positionKnown_step (ax ay az : double) (isKnown : bool)
    (it : tuple5) : bool :=
  if deqb (get0 it) ax && deqb (get1 it) ay && deqb (get2 it) az
  then true else isKnown.

Definition positionKnown (sg : Signal) (ax ay az : double) : bool :=
  fold_left (positionKnown_step ax ay az) (mGroundStations sg) false.

Definition setSatId (sg : Signal) (aId : Z) : Signal :=
  {| mSatId := aId; mTimestamp := mTimestamp sg;
     mGroundStations := mGroundStations sg |}.

Definition setTimestamp (sg : Signal) (aTimestamp : ldouble) : Signal :=
  {| mSatId := mSatId sg; mTimestamp := aTimestamp;
     mGroundStations := mGroundStations sg |}.

Definition getSatId (sg : Signal) : Z := mSatId sg.
Definition getTimestamp (sg : Signal) : ldouble := mTimestamp sg.
Definition getSize (sg : Signal) : Z :=
  int_of_size (length (mGroundStations sg)).

Definition printDelayStats (sg : Signal) : DelayStats :=
  let acc := delay_loop (map get4 (mGroundStations sg)) in
  {| stats_satId := mSatId sg;
     stats_timestamp := mTimestamp sg;
     stats_mean :=
       ddiv (sumDelay acc)
            (double_of_Z (Z.of_nat (length (mGroundStations sg))));
     stats_min := minDelay acc;
     stats_max := maxDelay acc |}.

End Signal.

(** ** The quantities that the specification names *)

Module Spec.

(** The speed of light, in metres per second. *)
Definition speed_of_light : Z := 299792458.

(** [range = (t - t0) * c], from the two times. *)
Definition range (t t0 : ldouble) : double :=
  double_of_ldouble (lmul (lsub t t0) (ldouble_of_Z speed_of_light)).

(** [range = dt * c], from the difference [dt = t - t0] already taken. *)
Definition range_of_dt (dt : double) : double :=
  dmul dt (double_of_Z speed_of_light).

(** The minimum and the maximum of the delays [d :: ds], and their mean. *)
Definition delay_minimum (d : double) (ds : list double) : double :=
  fold_left (fun m c => if dltb c m then c else m) ds d.

Definition delay_maximum (d : double) (ds : list double) : double :=
  fold_left (fun m c => if dltb m c then c else m) ds d.

Definition delay_sum (ds : list double) : double :=
  fold_left dadd ds (double_of_Z 0).

Definition delay_mean (ds : list double) : double :=
  ddiv (delay_sum ds) (double_of_Z (Z.of_nat (length ds))).

(** The Euclidean distance of two positions:
    [sqrt((x1 - x2)^2 + (y1 - y2)^2 + (z1 - z2)^2)]. *)
Definition square (v : ldouble) : ldouble := lmul v v.

Definition euclidean_distance (o : sqrt_overload)
    (p q : PositionsList.Position) : ldouble :=
  sqrt o
    (ladd
       (ladd (square (lsub (PositionsList.p0 p) (PositionsList.p0 q)))
             (square (lsub (PositionsList.p1 p) (PositionsList.p1 q))))
       (square (lsub (PositionsList.p2 p) (PositionsList.p2 q)))).

(** The sum of one coordinate over the positions, divided by their number:
    a coordinate of the centroid. *)
Definition coordinate_sum (f : PositionsList.Position -> ldouble)
    (ps : list PositionsList.Position) : ldouble :=
  fold_left (fun acc p => ladd acc (f p)) ps (ldouble_of_Z 0).

Definition centroid_coordinate (f : PositionsList.Position -> ldouble)
    (ps : list PositionsList.Position) : ldouble :=
  ldiv (coordinate_sum f ps) (ldouble_of_Z (Z.of_nat (length ps))).

(** The sum of the quotients of one coordinate by [n], in the order of the
    positions. *)
Definition quotient_sum (n : Z) (f : PositionsList.Position -> ldouble)
    (ps : list PositionsList.Position) : ldouble :=
  fold_left (fun acc p => ladd acc (ldiv (f p) (ldouble_of_Z n))) ps
    (ldouble_of_Z 0).

(** A finite [long double] is a whole number of units of [2^-16445], the
    least positive one.  In these units and without rounding: the sum of
    one coordinate over the positions, and the sum of its absolute
    values. *)
Definition units_sum (f : PositionsList.Position -> ldouble)
    (ps : list PositionsList.Position) : Z :=
  fold_right (fun p acc => lunits (f p) + acc) 0 ps.

Definition units_abs_sum (f : PositionsList.Position -> ldouble)
    (ps : list PositionsList.Position) : Z :=
  fold_right (fun p acc => Z.abs (lunits (f p)) + acc) 0 ps.

(** [v] is the sum of the coordinate [f] divided by [n], up to rounding:
    it is a whole number of units, and
    [|v - sum / n| <= (n + 1) * 2^-62 * (sum of absolute values / n)
    + 2 * n * 2^-16445], both sides multiplied by [n * 2^62] units. *)
Definition near_centroid (n : Z) (f : PositionsList.Position -> ldouble)
    (ps : list PositionsList.Position) (v : ldouble) : Prop :=
  SFaligned lprec lemax v /\
  2 ^ 62 * Z.abs (n * lunits v - units_sum f ps)
  <= (n + 1) * units_abs_sum f ps + 2 ^ 63 * (n * n).

(** A [long double] that is a number, neither an infinity nor NaN, and a
    position whose three coordinates are such. *)
Definition finite_number (v : ldouble) : bool := lvalid v && is_finite v.

Definition finite_position (p : PositionsList.Position) : bool :=
  finite_number (PositionsList.p0 p)
  && finite_number (PositionsList.p1 p)
  && finite_number (PositionsList.p2 p).

(** What the getters of a station return, in the order of the tuple of a
    ground station: the coordinates, the range, the delay. *)
Definition station_view (s : Station.Station) : Signal.tuple5 :=
  Signal.make_tuple (Station.getX s) (Station.getY s) (Station.getZ s)
    (Station.getR s) (Station.getDelay s).

(** The line [st] of delay statistics is the one written for the delays
    [ds]: by a collection of stations, or by a signal. *)
Inductive delay_report : DelayStats -> list double -> Prop :=
| report_of_Stations (ss : Stations.Stations) (aSatId : Z)
    (aTimestamp : double) :
    delay_report (Stations.printDelayStats ss aSatId aTimestamp)
      (map Station.getDelay (Stations.mStations ss))
| report_of_Signal (sg : Signal.Signal) :
    delay_report (Signal.printDelayStats sg)
      (map Signal.get4 (Signal.mGroundStations sg)).

(** A ground station of a signal lies at [(ax, ay, az)]: the three
    comparisons of [positionKnown]. *)
Definition same_place (ax ay az : double) (it : Signal.tuple5) : bool :=
  deqb (Signal.get0 it) ax && deqb (Signal.get1 it) ay
  && deqb (Signal.get2 it) az.

End Spec.

(** ** Concrete stations, stores and signals *)

Module Cases.

Definition d0 : double := double_of_Z 0.
Definition l0 : ldouble := ldouble_of_Z 0.

(** Storage that holds zeros before a constructor runs. *)
Definition raw0 : Station.Station :=
  Station.Build d0 d0 d0 l0 d0 l0 d0.

(** A station that receives at [t = 1] a signal sent at [t0 = 2], and one
    that receives at [t = 2] a signal sent at [t0 = 1]. *)
Definition early_station : Station.Station :=
  Station.Station_at raw0 d0 d0 d0 (ldouble_of_Z 1).

Definition late_station : Station.Station :=
  Station.Station_at raw0 d0 d0 d0 (ldouble_of_Z 2).

(** A station whose delay is 200, alone in its collection, and the same
    as the one ground station of a signal. *)
Definition slow_station : Station.Station :=
  Station.Station_aR raw0 d0 d0 d0 l0 l0 (double_of_Z 200).

Definition slow_stations : Stations.Stations :=
  Stations.addStation (Stations.Stations_ l0) slow_station.

Definition slow_signal : Signal.Signal :=
  Signal.addGroundStation_dt (Signal.Signal_ 1 l0) d0 d0 d0 l0 d0
    (double_of_Z 200).

(** A store whose one candidate has an infinite coordinate. *)
Definition far_store : PositionsList.PositionsList :=
  PositionsList.PositionsList_of
    (PositionsList.Build_Position (S754_infinity false) l0 l0 l0 l0).

(** A store of five candidates, of first coordinates 1, 2, 4, 0, 0. *)
Definition on_axis (v : Z) : PositionsList.Position :=
  PositionsList.Build_Position (ldouble_of_Z v) l0 l0 l0 l0.

Definition five_store : PositionsList.PositionsList :=
  PositionsList.addPositions PositionsList.PositionsList_
    (map on_axis [1; 2; 4; 0; 0]).

(** A store of three candidates, of first coordinates [3 * 2^64], [3]
    and [- 3 * 2^64]: their sum is 3. *)
Definition cancelling_store : PositionsList.PositionsList :=
  PositionsList.addPositions PositionsList.PositionsList_
    (map on_axis [3 * 2 ^ 64; 3; - 3 * 2 ^ 64]).

(** The least positive [long double], [2^-16445], and a store of two
    candidates that have it as their first coordinate. *)
Definition least : ldouble := S754_finite false 1 (-16445).

Definition least_store : PositionsList.PositionsList :=
  PositionsList.addPositions PositionsList.PositionsList_
    [PositionsList.Build_Position least l0 l0 l0 l0;
     PositionsList.Build_Position least l0 l0 l0 l0].

(** One half, as a [long double]. *)
Definition half : ldouble := ldiv (ldouble_of_Z 1) (ldouble_of_Z 2).

(** A store filled through [addPosition( aPosVec, combSt )]: four numbers
    and the combination [7], then five numbers, the last one a half. *)
Definition four_numbers : option PositionsList.PositionsList :=
  PositionsList.addPosition_vec PositionsList.PositionsList_
    [ldouble_of_Z 1; ldouble_of_Z 2; ldouble_of_Z 3; ldouble_of_Z 4] [7].

Definition five_numbers : option PositionsList.PositionsList :=
  PositionsList.addPosition_vec PositionsList.PositionsList_
    [ldouble_of_Z 1; ldouble_of_Z 2; ldouble_of_Z 3; ldouble_of_Z 4; half]
    [7].

(** A signal of two ground stations, of delays 30 and 70, one second and
    two seconds away. *)
Definition quick_signal : Signal.Signal :=
  Signal.addGroundStation_dt
    (Signal.addGroundStation_dt (Signal.Signal_ 1 l0) d0 d0 d0 l0
       (double_of_Z 1) (double_of_Z 30))
    (double_of_Z 1) d0 d0 l0 (double_of_Z 2) (double_of_Z 70).

End Cases.

(** * Properties *)

(** ** Facts on the arithmetic of [SpecFloat] *)

Section FloatFacts.

Variables prec emax : Z.

(** The sign given to the rounding function only sets the sign of its
    result. *)
Lemma SFabs_binary_round_aux (sx sy : bool) (m e : Z) (l : location) :
  SFabs (binary_round_aux prec emax sx m e l)
  = SFabs (binary_round_aux prec emax sy m e l).
Proof.
  unfold binary_round_aux.
  destruct (shr_fexp prec emax m e l) as [mrs' e'].
  destruct (shr_fexp prec emax _ e' loc_Exact) as [mrs'' e''].
  destruct (shr_m mrs''); try reflexivity.
  destruct (e'' <=? emax - prec); reflexivity.
Qed.

Lemma SFabs_binary_round (sx sy : bool) (m : positive) (e : Z) :
  SFabs (binary_round prec emax sx m e)
  = SFabs (binary_round prec emax sy m e).
Proof.
  unfold binary_round.
  destruct (shl_align m e _) as [mz ez].
  apply SFabs_binary_round_aux.
Qed.

Lemma SFabs_binary_normalize_opp (m e : Z) (sz : bool) :
  SFabs (binary_normalize prec emax (- m) e sz)
  = SFabs (binary_normalize prec emax m e sz).
Proof.
  destruct m; simpl; try reflexivity; apply SFabs_binary_round.
Qed.

(** [a - b] and [b - a] differ by their sign at most. *)
Lemma SFabs_SFsub_swap (a b : spec_float) :
  SFabs (SFsub prec emax a b) = SFabs (SFsub prec emax b a).
Proof.
  destruct a as [sa|sa| |sa ma ea], b as [sb|sb| |sb mb eb];
    try (destruct sa, sb; reflexivity); try reflexivity.
  unfold SFsub. rewrite (Z.min_comm eb ea).
  rewrite <- SFabs_binary_normalize_opp. f_equal. f_equal. lia.
Qed.

(** A square does not depend on the sign of its argument. *)
Lemma SFmul_square_abs (u : spec_float) :
  SFmul prec emax u u = SFmul prec emax (SFabs u) (SFabs u).
Proof.
  destruct u as [s|s| |s m e]; simpl; try reflexivity;
    destruct s; reflexivity.
Qed.

Lemma SFmul_square_swap (a b : spec_float) :
  SFmul prec emax (SFsub prec emax a b) (SFsub prec emax a b)
  = SFmul prec emax (SFsub prec emax b a) (SFsub prec emax b a).
Proof.
  rewrite (SFmul_square_abs (SFsub prec emax a b)).
  rewrite (SFmul_square_abs (SFsub prec emax b a)).
  now rewrite (SFabs_SFsub_swap a b).
Qed.

(** [a - a] is [+0] when [a] is a zero or a finite number. *)
Lemma SFsub_diag (a : spec_float) :
  is_finite a = true -> SFsub prec emax a a = S754_zero false.
Proof.
  destruct a as [s|s| |s m e]; simpl; try discriminate; intros _.
  - destruct s; reflexivity.
  - rewrite Z.sub_diag. reflexivity.
Qed.

(** ... and NaN when [a] is an infinity or NaN. *)
Lemma SFsub_diag_nan (a : spec_float) :
  is_finite a = false -> SFsub prec emax a a = S754_nan.
Proof.
  destruct a as [s|s| |s m e]; simpl; try discriminate; intros _.
  - destruct s; reflexivity.
  - reflexivity.
Qed.

Lemma SFmul_comm (a b : spec_float) :
  SFmul prec emax a b = SFmul prec emax b a.
Proof.
  destruct a as [sa|sa| |sa ma ea], b as [sb|sb| |sb mb eb]; simpl;
    try reflexivity; try (now rewrite xorb_comm).
  now rewrite xorb_comm, Pos.mul_comm, Z.add_comm.
Qed.

End FloatFacts.

(** ** Signs, and the order of canonical numbers *)

Lemma iter_xO_pow (m d : positive) :
  Zpos (Pos.iter xO m d) = Zpos m * 2 ^ Zpos d.
Proof.
  change (Pos.iter xO m d) with (Zpower.shift_pos d m).
  rewrite Zpower.shift_pos_correct.
  change (Z.pow_pos 2 d) with (2 ^ Zpos d). lia.
Qed.

Lemma shl_align_value (m : positive) (e e' : Z) :
  e' <= e -> Zpos (fst (shl_align m e e')) = Zpos m * 2 ^ (e - e').
Proof.
  intros H. unfold shl_align.
  destruct (e' - e) as [|d|d] eqn:E.
  - replace (e - e') with 0 by lia. simpl. lia.
  - lia.
  - simpl fst. rewrite iter_xO_pow. f_equal. f_equal. lia.
Qed.

(** A positive number of [d] binary digits lies between [2^(d-1)] and
    [2^d]. *)
Lemma digits2_pos_bounds (m : positive) :
  2 ^ (Zpos (digits2_pos m) - 1) <= Zpos m < 2 ^ Zpos (digits2_pos m).
Proof.
  induction m as [p IH|p IH|]; simpl digits2_pos.
  - rewrite Pos2Z.inj_succ, (Pos2Z.inj_xI p).
    replace (Z.succ (Zpos (digits2_pos p)) - 1)
      with (Z.succ (Zpos (digits2_pos p) - 1)) by lia.
    rewrite !Z.pow_succ_r by lia.
    revert IH.
    generalize (2 ^ (Zpos (digits2_pos p) - 1)) (2 ^ Zpos (digits2_pos p)).
    intros; lia.
  - rewrite Pos2Z.inj_succ, (Pos2Z.inj_xO p).
    replace (Z.succ (Zpos (digits2_pos p)) - 1)
      with (Z.succ (Zpos (digits2_pos p) - 1)) by lia.
    rewrite !Z.pow_succ_r by lia.
    revert IH.
    generalize (2 ^ (Zpos (digits2_pos p) - 1)) (2 ^ Zpos (digits2_pos p)).
    intros; lia.
  - simpl. lia.
Qed.

Lemma digits2_pos_iter_xO (m k : positive) :
  digits2_pos (Pos.iter xO m k) = (digits2_pos m + k)%positive.
Proof.
  induction k as [|k IH] using Pos.peano_ind.
  - simpl. now rewrite Pos.add_1_r.
  - rewrite Pos.iter_succ. simpl. rewrite IH. now rewrite Pos.add_succ_r.
Qed.

Section FloatOrder.

Variables prec emax : Z.

(** Of two canonical numbers, the one of larger exponent is the larger. *)
Lemma canonical_lt (m1 m2 : positive) (e1 e2 : Z) :
  canonical_mantissa prec emax m1 e1 = true ->
  canonical_mantissa prec emax m2 e2 = true ->
  e1 < e2 -> Zpos m1 < Zpos m2 * 2 ^ (e2 - e1).
Proof.
  unfold canonical_mantissa, fexp, emin. rewrite !Z.eqb_eq.
  intros H1 H2 Hlt.
  pose proof (digits2_pos_bounds m1) as [_ B1].
  pose proof (digits2_pos_bounds m2) as [B2 _].
  assert (D1 : Zpos (digits2_pos m1) <= prec) by lia.
  assert (D2 : Zpos (digits2_pos m2) = prec) by lia.
  rewrite D2 in B2.
  assert (P1 : 2 ^ Zpos (digits2_pos m1) <= 2 ^ prec)
    by (apply Z.pow_le_mono_r; lia).
  assert (P2 : 2 ^ 1 <= 2 ^ (e2 - e1)) by (apply Z.pow_le_mono_r; lia).
  assert (P3 : 2 ^ prec = 2 ^ (prec - 1) * 2).
  { replace prec with (Z.succ (prec - 1)) at 1 by lia.
    rewrite Z.pow_succ_r by lia. lia. }
  change (2 ^ 1) with 2 in P2.
  nia.
Qed.

Lemma binary_round_aux_not_negative (m e : Z) (l : location) :
  is_negative (binary_round_aux prec emax false m e l) = false.
Proof.
  unfold binary_round_aux.
  destruct (shr_fexp prec emax m e l) as [mrs' e'].
  destruct (shr_fexp prec emax _ e' loc_Exact) as [mrs'' e''].
  destruct (shr_m mrs''); try reflexivity.
  destruct (e'' <=? emax - prec); reflexivity.
Qed.

Lemma binary_round_not_negative (m : positive) (e : Z) :
  is_negative (binary_round prec emax false m e) = false.
Proof.
  unfold binary_round.
  destruct (shl_align m e _). apply binary_round_aux_not_negative.
Qed.

Lemma binary_normalize_not_negative (m e : Z) :
  0 <= m -> is_negative (binary_normalize prec emax m e false) = false.
Proof.
  intros H. destruct m as [|p|p]; try lia.
  - reflexivity.
  - apply binary_round_not_negative.
Qed.

(** [a - b] is not negative when [b <= a]. *)
Lemma SFsub_not_negative (a b : spec_float) :
  valid_binary prec emax a = true -> valid_binary prec emax b = true ->
  SFleb b a = true -> is_negative (SFsub prec emax a b) = false.
Proof.
  intros Va Vb. unfold SFleb.
  destruct a as [sa|sa| |sa ma ea], b as [sb|sb| |sb mb eb];
    match goal with
    | |- context [SFsub _ _ (S754_finite _ _ _) (S754_finite _ _ _)] =>
        idtac
    | _ =>
        intros;
        repeat match goal with s : bool |- _ => destruct s end;
        simpl in *; (discriminate || reflexivity)
    end.
  simpl in Va, Vb. unfold bounded in Va, Vb.
  apply andb_prop in Va as [Ca _]. apply andb_prop in Vb as [Cb _].
  intros H. unfold SFsub. apply binary_normalize_not_negative.
  rewrite !shl_align_value by lia.
  pose proof (Pos2Z.is_pos ma). pose proof (Pos2Z.is_pos mb).
  assert (Pa : 0 < 2 ^ (ea - Z.min ea eb))
    by (apply Z.pow_pos_nonneg; lia).
  assert (Pb : 0 < 2 ^ (eb - Z.min ea eb))
    by (apply Z.pow_pos_nonneg; lia).
  unfold SFcompare in H.
  destruct sa, sb; cbn [cond_Zopp]; try discriminate; try nia.
  - destruct (Z.compare_spec eb ea) as [E|E|E]; try discriminate.
    + subst eb. rewrite Z.min_id, Z.sub_diag. change (2 ^ 0) with 1.
      rewrite Pos.compare_cont_spec in H. simpl in H.
      destruct (Pos.compare_spec mb ma); simpl in H;
        try discriminate; lia.
    + rewrite Z.min_l by lia. rewrite Z.sub_diag. change (2 ^ 0) with 1.
      pose proof (canonical_lt _ _ _ _ Ca Cb E). lia.
  - destruct (Z.compare_spec eb ea) as [E|E|E]; try discriminate.
    + subst eb. rewrite Z.min_id, Z.sub_diag. change (2 ^ 0) with 1.
      rewrite Pos.compare_cont_spec in H. simpl in H.
      destruct (Pos.compare_spec mb ma); simpl in H;
        try discriminate; lia.
    + rewrite Z.min_r by lia. rewrite Z.sub_diag. change (2 ^ 0) with 1.
      pose proof (canonical_lt _ _ _ _ Cb Ca E). lia.
Qed.

(** The product of a number that is not negative by a positive one is not
    negative. *)
Lemma SFmul_not_negative (u : spec_float) (m : positive) (e : Z) :
  is_negative u = false ->
  is_negative (SFmul prec emax u (S754_finite false m e)) = false.
Proof.
  destruct u as [s|s| |s mu eu]; try destruct s;
    try reflexivity; try (intros H; cbv in H; discriminate H).
  intros _. cbn [SFmul xorb]. apply binary_round_aux_not_negative.
Qed.

(** A conversion keeps a number that is not negative so. *)
Lemma SFconv_not_negative (u : spec_float) :
  is_negative u = false -> is_negative (SFconv prec emax u) = false.
Proof.
  destruct u as [s|s| |s mu eu]; try destruct s;
    try (intros H; exact H); try (intros H; cbv in H; discriminate H).
  intros _. cbn [SFconv]. apply binary_round_not_negative.
Qed.

End FloatOrder.

(** ** Integers in a floating-point format *)

Section FloatIntegers.

Variables prec emax : Z.

(** Rounding leaves a canonical number as it is. *)
Lemma binary_round_aux_canonical (s : bool) (m : positive) (e : Z) :
  canonical_mantissa prec emax m e = true -> e <= emax - prec ->
  binary_round_aux prec emax s (Zpos m) e loc_Exact = S754_finite s m e.
Proof.
  unfold canonical_mantissa. rewrite Z.eqb_eq. intros C B.
  unfold binary_round_aux, shr_fexp. cbn [Zdigits2 shr_record_of_loc].
  rewrite C, Z.sub_diag.
  cbn [shr shr_m loc_of_shr_record round_nearest_even Zdigits2
       shr_record_of_loc].
  rewrite C, Z.sub_diag. cbn [shr shr_m].
  apply Z.leb_le in B. now rewrite B.
Qed.

(** Aligning a number on the exponent of its format, below its own, makes
    it canonical and keeps its value. *)
Lemma shl_align_canonical (m : positive) (e ez : Z) :
  ez = fexp prec emax (Zpos (digits2_pos m) + e) ->
  ez <= e ->
  snd (shl_align m e ez) = ez /\
  canonical_mantissa prec emax (fst (shl_align m e ez)) ez = true /\
  Zpos (fst (shl_align m e ez)) = Zpos m * 2 ^ (e - ez).
Proof.
  intros Hz H. unfold shl_align, canonical_mantissa.
  destruct (ez - e) as [|k|k] eqn:E; try lia; cbn [fst snd].
  - assert (ez = e) by lia. subst e. repeat split.
    + apply Z.eqb_eq. now symmetry.
    + rewrite Z.sub_diag. lia.
  - repeat split.
    + apply Z.eqb_eq. rewrite digits2_pos_iter_xO, Pos2Z.inj_add.
      replace (Zpos (digits2_pos m) + Zpos k + ez)
        with (Zpos (digits2_pos m) + e) by lia.
      now symmetry.
    + rewrite iter_xO_pow. f_equal. f_equal. lia.
Qed.

(** An integer of at most [prec] binary digits is a number of the format:
    its conversion is exact. *)
Lemma binary_round_integer (s : bool) (m : positive) :
  1 < prec <= emax -> Zpos m < 2 ^ prec ->
  exists mz ez,
    binary_round prec emax s m 0 = S754_finite s mz ez /\
    ez <= 0 /\ Zpos mz = Zpos m * 2 ^ (- ez).
Proof.
  intros Hp Hm. unfold binary_round.
  pose proof (digits2_pos_bounds m) as [Lo _].
  assert (D : Zpos (digits2_pos m) <= prec).
  { assert (Zpos (digits2_pos m) - 1 < prec); [|lia].
    apply (Z.pow_lt_mono_r_iff 2); lia. }
  assert (F : fexp prec emax (Zpos (digits2_pos m) + 0) <= 0)
    by (unfold fexp, emin; lia).
  destruct (shl_align_canonical m 0 _ eq_refl F) as (E1 & E2 & E3).
  destruct (shl_align m 0 _) as [mz ez'] eqn:E.
  cbn [fst snd] in *. subst ez'.
  exists mz, (fexp prec emax (Zpos (digits2_pos m) + 0)).
  rewrite binary_round_aux_canonical; [| assumption | lia].
  repeat split; [assumption|]. rewrite E3. f_equal.
Qed.

Lemma SFtoZ_shifted (s : bool) (mz : positive) (ez m : Z) :
  ez <= 0 -> Zpos mz = m * 2 ^ (- ez) ->
  SFtoZ (S754_finite s mz ez) = Some (cond_Zopp s m).
Proof.
  intros H E. unfold SFtoZ. f_equal. f_equal.
  destruct ez as [|p|p]; try lia.
  rewrite E. change (Z.pow_pos 2 p) with (2 ^ Zpos p).
  replace (- Zneg p) with (Zpos p) by lia.
  apply Z.div_mul. apply Z.pow_nonzero; lia.
Qed.

(** An integer below [2^prec] in absolute value is read back from the
    format as it was. *)
Lemma SFtoZ_SFofZ (n : Z) :
  1 < prec <= emax -> Z.abs n < 2 ^ prec ->
  SFtoZ (SFofZ prec emax n) = Some n.
Proof.
  intros Hp Hn. unfold SFofZ.
  destruct n as [|m|m]; cbn [binary_normalize].
  - reflexivity.
  - destruct (binary_round_integer false m Hp) as (mz & ez & E & L & V);
      [lia|].
    rewrite E. now apply (SFtoZ_shifted false mz ez (Zpos m)).
  - destruct (binary_round_integer true m Hp) as (mz & ez & E & L & V);
      [lia|].
    rewrite E. now apply (SFtoZ_shifted true mz ez (Zpos m)).
Qed.

(** A positive integer below [2^prec] is a positive number of the
    format. *)
Lemma SFofZ_positive (n : Z) :
  1 < prec <= emax -> 0 < n < 2 ^ prec ->
  exists mz ez, SFofZ prec emax n = S754_finite false mz ez.
Proof.
  intros Hp Hn. unfold SFofZ.
  destruct n as [|m|m]; try lia. cbn [binary_normalize].
  destruct (binary_round_integer false m Hp) as (mz & ez & E & _);
    [lia|].
  now exists mz, ez.
Qed.

End FloatIntegers.

(** ** Vectors *)

Lemma at_app_old {A : Type} (v : list A) (a : A) (i : Z) (q : A) :
  at_ v i = Some q -> at_ (v ++ [a]) i = Some q.
Proof.
  unfold at_. destruct (i <? 0); [discriminate|].
  intros H. rewrite nth_error_app1; [exact H|].
  apply nth_error_Some. congruence.
Qed.

Lemma at_app_new {A : Type} (v : list A) (a : A) :
  at_ (v ++ [a]) (Z.of_nat (length v)) = Some a.
Proof.
  unfold at_.
  destruct (Z.ltb_spec (Z.of_nat (length v)) 0) as [H|_]; [lia|].
  rewrite Nat2Z.id, nth_error_app2 by lia.
  now rewrite Nat.sub_diag.
Qed.

Lemma at_nth_error {A : Type} (v : list A) (i : nat) :
  at_ v (Z.of_nat i) = nth_error v i.
Proof.
  unfold at_.
  destruct (Z.ltb_spec (Z.of_nat i) 0) as [H|_]; [lia|].
  now rewrite Nat2Z.id.
Qed.

(** The [int] that [size()] returns counts the elements as long as their
    number is an [int]. *)
Lemma int_of_size_small (n : nat) :
  Z.of_nat n <= INT_MAX -> int_of_size n = Z.of_nat n.
Proof.
  unfold INT_MAX, int_of_size. intros H.
  rewrite Z.mod_small by lia. lia.
Qed.

(** One more element makes it one more, unless it was [INT_MAX]. *)
Lemma int_of_size_succ (n : nat) :
  int_of_size n < INT_MAX -> int_of_size (S n) = int_of_size n + 1.
Proof.
  unfold INT_MAX, int_of_size. rewrite Nat2Z.inj_succ. intros H.
  set (a := Z.of_nat n + 2147483648) in *.
  replace (Z.succ (Z.of_nat n) + 2147483648) with (a + 1) by (unfold a; lia).
  pose proof (Z.mod_pos_bound a 4294967296 eq_refl) as B.
  assert (E : (a + 1) mod 4294967296 = a mod 4294967296 + 1).
  { rewrite Z.add_mod by lia. rewrite (Z.mod_small 1) by lia.
    apply Z.mod_small. lia. }
  lia.
Qed.

(** ** Range resolution *)

Lemma clight_as_long_double :
  ldouble_of_double Station.clight = ldouble_of_Z Spec.speed_of_light.
Proof. vm_compute. reflexivity. Qed.

Lemma setR_range (s : Station.Station) (aT0 : ldouble) :
  Station.getR (Station.setR s aT0) = Spec.range (Station.t s) aT0.
Proof.
  unfold Station.getR, Station.setR, Spec.range. cbn [Station.r].
  now rewrite clight_as_long_double.
Qed.

(** C1.  Range resolution is [range = (t - t0) * c] with the one constant
    [c = 299792458]: [Station::setR] stores it from the two times, the
    [Signal::addGroundStation] that takes the time difference stores
    [dt * c], and the constants of the two places are the same number,
    which is exactly [299792458]. *)
Theorem range_resolution_uses_speed_of_light :
  Station.clight = double_of_Z Spec.speed_of_light /\
  Signal.clight = Station.clight /\
  SFtoZ Station.clight = Some 299792458 /\
  (forall (s : Station.Station) (aT0 : ldouble),
      Station.getR (Station.setR s aT0) = Spec.range (Station.t s) aT0) /\
  (forall (sg : Signal.Signal) (ax ay az : double) (at0 : ldouble)
          (adt aDelay : double),
      Signal.mGroundStations
        (Signal.addGroundStation_dt sg ax ay az at0 adt aDelay)
      = Signal.mGroundStations sg
        ++ [Signal.make_tuple ax ay az (Spec.range_of_dt adt) aDelay]).
Proof.
  split; [reflexivity|]. split; [reflexivity|].
  split; [vm_compute; reflexivity|].
  split; [apply setR_range|].
  intros. unfold Signal.addGroundStation_dt, Spec.range_of_dt.
  cbn [Signal.push_back Signal.mGroundStations].
  unfold dmul. now rewrite SFmul_comm.
Qed.

(** At [t = 2] and [t0 = 1] the range is the speed of light itself. *)
Example setR_one_second :
  Station.getR (Station.setR Cases.late_station (ldouble_of_Z 1))
  = double_of_Z 299792458.
Proof. vm_compute. reflexivity. Qed.

Lemma convertStationToSignal_all (raw : Station.Station)
    (sg : Signal.Signal) (aStations : Stations.Stations) :
  Stations.mStations (Signal.convertStationToSignal raw sg aStations)
  = Stations.mStations aStations
    ++ map (fun it =>
              Station.Station_aR raw (Signal.get0 it) (Signal.get1 it)
                (Signal.get2 it) (Signal.mTimestamp sg)
                (ldouble_of_double (Signal.get3 it)) (Signal.get4 it))
           (Signal.mGroundStations sg).
Proof.
  unfold Signal.convertStationToSignal.
  revert aStations.
  induction (Signal.mGroundStations sg) as [|it l IH]; intros ss.
  - simpl. now rewrite app_nil_r.
  - simpl fold_left. rewrite IH. cbn [Stations.addStation Stations.mStations].
    now rewrite <- app_assoc.
Qed.

(** C2, as the code has it.  [setR] has no failure: it returns for every
    pair of times and stores [(t - t0) * c] whatever its sign.  The stored
    range is not negative when [t0 <= t]; nothing is said of it when
    [t < t0].  No station is left out for its range: [addStation] stores the
    station that it is given, and [convertStationToSignal] every ground
    station of the signal. *)
Theorem setR_range_not_negative :
  forall (s : Station.Station) (aT0 : ldouble),
    Station.getR (Station.setR s aT0) = Spec.range (Station.t s) aT0 /\
    (lvalid (Station.t s) = true -> lvalid aT0 = true ->
     lleb aT0 (Station.t s) = true ->
     is_negative (Station.getR (Station.setR s aT0)) = false) /\
    (forall ss : Stations.Stations,
        Stations.mStations (Stations.addStation ss (Station.setR s aT0))
        = Stations.mStations ss ++ [Station.setR s aT0]) /\
    (forall (raw : Station.Station) (sg : Signal.Signal)
            (ss : Stations.Stations),
        length (Stations.mStations (Signal.convertStationToSignal raw sg ss))
        = (length (Stations.mStations ss)
           + length (Signal.mGroundStations sg))%nat).
Proof.
  intros s aT0. split; [apply setR_range|]. split; [|split].
  - intros Vt V0 Hle.
    unfold Station.getR, Station.setR. cbn [Station.r].
    unfold double_of_ldouble. apply SFconv_not_negative.
    replace (ldouble_of_double Station.clight)
      with (S754_finite false 10300790421579628544 (-35))
      by (vm_compute; reflexivity).
    unfold lmul. apply SFmul_not_negative.
    unfold lsub. now apply SFsub_not_negative.
  - reflexivity.
  - intros raw sg ss. rewrite convertStationToSignal_all.
    now rewrite length_app, length_map.
Qed.

Lemma setR_range_not_negative_witness :
  lvalid (Station.t Cases.late_station) = true /\
  lvalid (ldouble_of_Z 1) = true /\
  lleb (ldouble_of_Z 1) (Station.t Cases.late_station) = true /\
  is_negative
    (Station.getR (Station.setR Cases.late_station (ldouble_of_Z 1)))
  = false.
Proof.
  split; [vm_compute; reflexivity|].
  split; [vm_compute; reflexivity|].
  split; [vm_compute; reflexivity|].
  apply (proj1 (proj2 (setR_range_not_negative
                         Cases.late_station (ldouble_of_Z 1))));
    vm_compute; reflexivity.
Defined.

(** A station that receives at [t = 1] a signal sent at [t0 = 2]: [setR]
    returns, the range that it stores is negative, and the station is stored
    in a collection like any other. *)
Lemma setR_negative_range :
  lltb (Station.t Cases.early_station) (ldouble_of_Z 2) = true /\
  Station.getR (Station.setR Cases.early_station (ldouble_of_Z 2))
  = double_of_Z (-299792458) /\
  is_negative
    (Station.getR (Station.setR Cases.early_station (ldouble_of_Z 2)))
  = true /\
  Stations.getStation
    (Stations.addStation (Stations.Stations_ Cases.l0)
       (Station.setR Cases.early_station (ldouble_of_Z 2))) 0
  = Some (Station.setR Cases.early_station (ldouble_of_Z 2)).
Proof. vm_compute. repeat split. Qed.

(** ** Delay statistics *)

Lemma delay_loop_from (ds : list double) (acc : DelayAcc) :
  sumDelay (fold_left delay_step ds acc) = fold_left dadd ds (sumDelay acc)
  /\ minDelay (fold_left delay_step ds acc)
     = Spec.delay_minimum (minDelay acc) ds
  /\ maxDelay (fold_left delay_step ds acc)
     = Spec.delay_maximum (maxDelay acc) ds.
Proof.
  revert acc. induction ds as [|d ds IH]; intros acc.
  - repeat split.
  - simpl fold_left. destruct (IH (delay_step acc d)) as (S & Mi & Ma).
    rewrite S, Mi, Ma. repeat split.
Qed.

Lemma delay_loop_sum (ds : list double) :
  sumDelay (delay_loop ds) = Spec.delay_sum ds.
Proof. apply delay_loop_from. Qed.

Lemma Stations_printDelayStats_mean (ss : Stations.Stations) (aSatId : Z)
    (aTimestamp : double) :
  stats_mean (Stations.printDelayStats ss aSatId aTimestamp)
  = Spec.delay_mean (map Station.getDelay (Stations.mStations ss)).
Proof.
  unfold Stations.printDelayStats, Spec.delay_mean. cbn [stats_mean].
  now rewrite delay_loop_sum, length_map.
Qed.

Lemma Signal_printDelayStats_mean (sg : Signal.Signal) :
  stats_mean (Signal.printDelayStats sg)
  = Spec.delay_mean (map Signal.get4 (Signal.mGroundStations sg)).
Proof.
  unfold Signal.printDelayStats, Spec.delay_mean. cbn [stats_mean].
  now rewrite delay_loop_sum, length_map.
Qed.

(** A number that compares equal to a finite one that is not a zero is that
    number. *)
Lemma SFcompare_Eq_finite (d : spec_float) (s : bool) (m : positive)
    (e : Z) :
  SFcompare d (S754_finite s m e) = Some Eq -> d = S754_finite s m e.
Proof.
  destruct d as [sd|sd| |sd md ed]; simpl;
    try discriminate; try (destruct sd; discriminate);
    try (destruct s; discriminate).
  destruct sd, s; try discriminate;
    destruct (Z.compare_spec ed e) as [E|E|E]; try discriminate;
    rewrite Pos.compare_cont_spec; simpl;
    destruct (Pos.compare_spec md m) as [M|M|M]; simpl;
    try discriminate; intros _; now subst.
Qed.

(** The first step of the two loops, from the initial values 100 and 0, on
    a first delay [d] with [0 < d <= 100]: the minimum and the maximum so
    far are [d]. *)
Lemma delay_step_first (d : double) :
  dltb (double_of_Z 0) d = true -> dleb d (double_of_Z 100) = true ->
  minDelay (delay_step delay_init d) = d /\
  maxDelay (delay_step delay_init d) = d.
Proof.
  intros Hpos Hle. unfold delay_step, delay_init.
  cbn [minDelay maxDelay sumDelay]. rewrite Hpos. split; [|reflexivity].
  destruct (dltb d (double_of_Z 100)) eqn:Hlt; [reflexivity|].
  symmetry. revert Hle Hlt.
  replace (double_of_Z 100) with (S754_finite false 7036874417766400 (-46))
    by (vm_compute; reflexivity).
  unfold dleb, dltb, SFleb, SFltb. intros Hle Hlt.
  apply SFcompare_Eq_finite.
  destruct (SFcompare d _) as [[| |]|]; try discriminate; reflexivity.
Qed.

(** Where the two [printDelayStats] are right: on delays [d :: ds] of which
    the first one is positive and at most 100, the three numbers are the
    mean, the minimum and the maximum of the delays. *)
Lemma delay_loop_in_range (d : double) (ds : list double) :
  dltb (double_of_Z 0) d = true -> dleb d (double_of_Z 100) = true ->
  sumDelay (delay_loop (d :: ds)) = Spec.delay_sum (d :: ds) /\
  minDelay (delay_loop (d :: ds)) = Spec.delay_minimum d ds /\
  maxDelay (delay_loop (d :: ds)) = Spec.delay_maximum d ds.
Proof.
  intros Hpos Hle. split; [apply delay_loop_sum|].
  unfold delay_loop. simpl fold_left.
  destruct (delay_loop_from ds (delay_step delay_init d)) as (_ & Mi & Ma).
  destruct (delay_step_first d Hpos Hle) as [E1 E2].
  rewrite Mi, Ma, E1, E2. split; reflexivity.
Qed.

(** C3, at a collection of one station whose delay is 200, and at a signal
    of one such ground station.  The minimum of the delays is 200; both
    [printDelayStats] report 100, the initial value of [minDelay], as the
    minimum, next to the mean 200 and the maximum 200. *)
Theorem printDelayStats_minimum_above_100 :
  let st := Stations.printDelayStats Cases.slow_stations 1 Cases.d0 in
  let sg := Signal.printDelayStats Cases.slow_signal in
  map Station.getDelay (Stations.mStations Cases.slow_stations)
  = [double_of_Z 200] /\
  map Signal.get4 (Signal.mGroundStations Cases.slow_signal)
  = [double_of_Z 200] /\
  Spec.delay_minimum (double_of_Z 200) [] = double_of_Z 200 /\
  stats_min st = double_of_Z 100 /\
  stats_mean st = double_of_Z 200 /\
  stats_max st = double_of_Z 200 /\
  stats_min sg = double_of_Z 100 /\
  stats_mean sg = double_of_Z 200 /\
  stats_max sg = double_of_Z 200.
Proof. vm_compute. repeat split. Qed.

(** C10.  Both [printDelayStats] divide the sum of the delays by the number
    of elements without a test.  On an empty collection the sum is 0 and the
    number is 0, and the mean that is written is [0 / 0], which is NaN;
    whatever the collection, the mean is the sum divided by the number; and
    on a collection that is not empty (of fewer than [2^53] elements) the
    divisor is a positive finite number. *)
Theorem printDelayStats_empty_divides_zero_by_zero :
  (forall (mT : ldouble) (aSatId : Z) (aTimestamp : double),
      stats_mean
        (Stations.printDelayStats (Stations.Build [] mT) aSatId aTimestamp)
      = ddiv (double_of_Z 0) (double_of_Z 0)) /\
  (forall (aSatId : Z) (aTimestamp : ldouble),
      stats_mean (Signal.printDelayStats (Signal.Build aSatId aTimestamp []))
      = ddiv (double_of_Z 0) (double_of_Z 0)) /\
  ddiv (double_of_Z 0) (double_of_Z 0) = S754_nan /\
  (forall (ss : Stations.Stations) (aSatId : Z) (aTimestamp : double),
      stats_mean (Stations.printDelayStats ss aSatId aTimestamp)
      = ddiv (Spec.delay_sum
                (map Station.getDelay (Stations.mStations ss)))
             (double_of_Z (Z.of_nat (length (Stations.mStations ss))))) /\
  (forall sg : Signal.Signal,
      stats_mean (Signal.printDelayStats sg)
      = ddiv (Spec.delay_sum
                (map Signal.get4 (Signal.mGroundStations sg)))
             (double_of_Z (Z.of_nat (length (Signal.mGroundStations sg))))) /\
  (forall n : nat,
      (0 < n)%nat -> Z.of_nat n < 2 ^ 53 ->
      exists m e, double_of_Z (Z.of_nat n) = S754_finite false m e).
Proof.
  split; [reflexivity|]. split; [reflexivity|]. split; [reflexivity|].
  split; [|split].
  - intros. rewrite Stations_printDelayStats_mean.
    unfold Spec.delay_mean. now rewrite length_map.
  - intros. rewrite Signal_printDelayStats_mean.
    unfold Spec.delay_mean. now rewrite length_map.
  - intros n Hn Hb. apply SFofZ_positive; unfold dprec, demax; lia.
Qed.

Lemma printDelayStats_divisor_witness :
  (0 < 1)%nat /\ Z.of_nat 1 < 2 ^ 53 /\
  exists m e, double_of_Z (Z.of_nat 1) = S754_finite false m e.
Proof.
  split; [lia|]. split; [reflexivity|].
  apply (proj2 (proj2 (proj2 (proj2 (proj2
           printDelayStats_empty_divides_zero_by_zero)))) 1%nat);
    [lia | reflexivity].
Defined.

(** ** The station set *)

Lemma addStation_all (l : list Station.Station) (ss : Stations.Stations) :
  Stations.mStations (fold_left Stations.addStation l ss)
  = Stations.mStations ss ++ l.
Proof.
  revert ss. induction l as [|s l IH]; intros ss.
  - simpl. now rewrite app_nil_r.
  - simpl fold_left. rewrite IH. cbn [Stations.addStation Stations.mStations].
    now rewrite <- app_assoc.
Qed.

(** C8.  Stations added one after the other to a new collection are stored
    in the order of their addition: the vector is the sequence of the
    stations added, [size()] is their number (as long as it is an [int]),
    and [getStation(i)] is the station added in position [i], counted
    from 0. *)
Theorem Stations_keep_insertion_order :
  forall (raw_mT : ldouble) (l : list Station.Station),
    let ss := fold_left Stations.addStation l (Stations.Stations_ raw_mT) in
    Stations.mStations ss = l /\
    (Z.of_nat (length l) <= INT_MAX ->
     Stations.size ss = Z.of_nat (length l)) /\
    (forall (i : nat) (s : Station.Station),
        nth_error l i = Some s ->
        Stations.getStation ss (Z.of_nat i) = Some s) /\
    (forall i : Z,
        0 <= i < Z.of_nat (length l) ->
        exists s, Stations.getStation ss i = Some s
                  /\ nth_error l (Z.to_nat i) = Some s).
Proof.
  intros raw_mT l ss.
  assert (E : Stations.mStations ss = l) by (unfold ss; apply addStation_all).
  split; [exact E|]. split; [|split].
  - intros H. unfold Stations.size. rewrite E. now apply int_of_size_small.
  - intros i s H. unfold Stations.getStation. rewrite E.
    now rewrite at_nth_error.
  - intros i Hi. unfold Stations.getStation. rewrite E.
    destruct (nth_error l (Z.to_nat i)) as [s|] eqn:N.
    + exists s. split; [|reflexivity].
      rewrite <- (Z2Nat.id i) by lia. now rewrite at_nth_error.
    + apply nth_error_None in N. lia.
Qed.

Lemma Stations_keep_insertion_order_witness :
  let l := [Cases.early_station; Cases.late_station] in
  let ss := fold_left Stations.addStation l (Stations.Stations_ Cases.l0) in
  Stations.size ss = 2 /\
  Stations.getStation ss 0 = Some Cases.early_station /\
  Stations.getStation ss 1 = Some Cases.late_station.
Proof.
  intros l ss.
  destruct (Stations_keep_insertion_order Cases.l0 l) as (_ & S & G & _).
  split; [apply S; vm_compute; discriminate|].
  split; [apply (G 0%nat); reflexivity | apply (G 1%nat); reflexivity].
Defined.

(** ** Known positions of a signal *)

Lemma positionKnown_from (ax ay az : double) (l : list Signal.tuple5)
    (isKnown : bool) :
  fold_left (Signal.positionKnown_step ax ay az) l isKnown
  = isKnown || existsb (Spec.same_place ax ay az) l.
Proof.
  revert isKnown. induction l as [|it l IH]; intros isKnown.
  - simpl. now rewrite orb_false_r.
  - simpl fold_left. rewrite IH. simpl existsb.
    unfold Signal.positionKnown_step, Spec.same_place.
    destruct (deqb (Signal.get0 it) ax && deqb (Signal.get1 it) ay
              && deqb (Signal.get2 it) az); simpl.
    + now rewrite orb_true_r.
    + reflexivity.
Qed.

Lemma positionKnown_existsb (sg : Signal.Signal) (ax ay az : double) :
  Signal.positionKnown sg ax ay az
  = existsb (Spec.same_place ax ay az) (Signal.mGroundStations sg).
Proof. unfold Signal.positionKnown. now rewrite positionKnown_from. Qed.

(** C9.  [positionKnown(x, y, z)] is true exactly when a ground station of
    the signal has its three coordinates equal, for the equality of
    [double], to [x], [y] and [z].  The ground stations of a signal are
    those that were added to it: adding one makes its place known and
    changes nothing else.  The range and the delay of the ground stations do
    not count: replacing them by any others leaves the answer as it is. *)
Theorem positionKnown_iff_same_coordinates :
  forall (sg : Signal.Signal) (ax ay az : double),
    (Signal.positionKnown sg ax ay az = true <->
     exists it, In it (Signal.mGroundStations sg) /\
                deqb (Signal.get0 it) ax = true /\
                deqb (Signal.get1 it) ay = true /\
                deqb (Signal.get2 it) az = true) /\
    (forall bx by_ bz br : double,
        Signal.positionKnown (Signal.addGroundStation sg bx by_ bz br)
          ax ay az
        = Signal.positionKnown sg ax ay az
          || (deqb bx ax && deqb by_ ay && deqb bz az)) /\
    (forall (bx by_ bz : double) (at0 : ldouble) (adt aDelay : double),
        Signal.positionKnown
          (Signal.addGroundStation_dt sg bx by_ bz at0 adt aDelay) ax ay az
        = Signal.positionKnown sg ax ay az
          || (deqb bx ax && deqb by_ ay && deqb bz az)) /\
    (forall range_ delay_ : Signal.tuple5 -> double,
        Signal.positionKnown
          (Signal.Build (Signal.mSatId sg) (Signal.mTimestamp sg)
             (map (fun it =>
                     Signal.make_tuple (Signal.get0 it) (Signal.get1 it)
                       (Signal.get2 it) (range_ it) (delay_ it))
                  (Signal.mGroundStations sg)))
          ax ay az
        = Signal.positionKnown sg ax ay az).
Proof.
  intros sg ax ay az. split; [|split; [|split]].
  - rewrite positionKnown_existsb, existsb_exists.
    unfold Spec.same_place.
    split; intros (it & Hin & H); exists it; (split; [exact Hin|]).
    + apply andb_prop in H as [H Hz]. apply andb_prop in H as [Hx Hy].
      now repeat split.
    + destruct H as (Hx & Hy & Hz). now rewrite Hx, Hy, Hz.
  - intros. rewrite !positionKnown_existsb.
    unfold Signal.addGroundStation.
    cbn [Signal.push_back Signal.mGroundStations].
    rewrite existsb_app. simpl. now rewrite orb_false_r.
  - intros. rewrite !positionKnown_existsb.
    unfold Signal.addGroundStation_dt.
    cbn [Signal.push_back Signal.mGroundStations].
    rewrite existsb_app. simpl. now rewrite orb_false_r.
  - intros. rewrite !positionKnown_existsb. cbn [Signal.mGroundStations].
    induction (Signal.mGroundStations sg) as [|it l IH]; [reflexivity|].
    simpl. now rewrite IH.
Qed.

(** ** The candidate store *)

Lemma Position_at_0 (p : PositionsList.Position) :
  PositionsList.Position_at p 0 = Some (PositionsList.p0 p).
Proof. reflexivity. Qed.

Lemma Position_at_1 (p : PositionsList.Position) :
  PositionsList.Position_at p 1 = Some (PositionsList.p1 p).
Proof. reflexivity. Qed.

Lemma Position_at_2 (p : PositionsList.Position) :
  PositionsList.Position_at p 2 = Some (PositionsList.p2 p).
Proof. reflexivity. Qed.

Lemma Position_at_4 (p : PositionsList.Position) :
  PositionsList.Position_at p 4 = Some (PositionsList.p4 p).
Proof. reflexivity. Qed.

Lemma getDistance_valid (o : sqrt_overload) (pl : PositionsList.PositionsList)
    (i j : Z) (p q : PositionsList.Position) :
  PositionsList.getPosition pl i = Some p ->
  PositionsList.getPosition pl j = Some q ->
  PositionsList.getDistance o pl i j = Some (Spec.euclidean_distance o p q).
Proof.
  unfold PositionsList.getPosition. intros Hp Hq.
  unfold PositionsList.getDistance, PositionsList.getX, PositionsList.getY,
    PositionsList.getZ, PositionsList.coordinate.
  rewrite Hp, Hq.
  now rewrite !Position_at_0, !Position_at_1, !Position_at_2.
Qed.

Lemma euclidean_distance_sym (o : sqrt_overload)
    (p q : PositionsList.Position) :
  Spec.euclidean_distance o p q = Spec.euclidean_distance o q p.
Proof.
  unfold Spec.euclidean_distance, Spec.square, lmul, lsub.
  now rewrite (SFmul_square_swap _ _ (PositionsList.p0 p)),
    (SFmul_square_swap _ _ (PositionsList.p1 p)),
    (SFmul_square_swap _ _ (PositionsList.p2 p)).
Qed.

Lemma euclidean_distance_diag (o : sqrt_overload)
    (p : PositionsList.Position) :
  is_finite (PositionsList.p0 p) = true ->
  is_finite (PositionsList.p1 p) = true ->
  is_finite (PositionsList.p2 p) = true ->
  Spec.euclidean_distance o p p = S754_zero false.
Proof.
  intros H0 H1 H2. unfold Spec.euclidean_distance, lsub.
  rewrite !SFsub_diag by assumption.
  destruct o; vm_compute; reflexivity.
Qed.

(** C4, as the code has it.  For two candidates stored at the indices [i]
    and [j], [getDistance(i, j)] is
    [sqrt((x_i - x_j)^2 + (y_i - y_j)^2 + (z_i - z_j)^2)], with whichever
    [sqrt] the call names; it is the same for [(j, i)]; and
    [getDistance(i, i)] is zero when the three coordinates of the candidate
    are finite numbers. *)
Theorem getDistance_is_euclidean_distance :
  forall (o : sqrt_overload) (pl : PositionsList.PositionsList) (i j : Z)
         (p q : PositionsList.Position),
    PositionsList.getPosition pl i = Some p ->
    PositionsList.getPosition pl j = Some q ->
    PositionsList.getDistance o pl i j
    = Some (Spec.euclidean_distance o p q) /\
    PositionsList.getDistance o pl j i = PositionsList.getDistance o pl i j /\
    (is_finite (PositionsList.p0 p) = true ->
     is_finite (PositionsList.p1 p) = true ->
     is_finite (PositionsList.p2 p) = true ->
     PositionsList.getDistance o pl i i = Some (S754_zero false)).
Proof.
  intros o pl i j p q Hp Hq. split; [|split].
  - now apply getDistance_valid.
  - rewrite (getDistance_valid o pl j i q p Hq Hp),
      (getDistance_valid o pl i j p q Hp Hq).
    now rewrite euclidean_distance_sym.
  - intros H0 H1 H2. rewrite (getDistance_valid o pl i i p p Hp Hp).
    now rewrite euclidean_distance_diag.
Qed.

Lemma getDistance_is_euclidean_distance_witness :
  PositionsList.getPosition Cases.five_store 1
  = Some (Cases.on_axis 2) /\
  PositionsList.getPosition Cases.five_store 2
  = Some (Cases.on_axis 4) /\
  is_finite (ldouble_of_Z 2) = true /\
  is_finite Cases.l0 = true /\
  PositionsList.getDistance sqrt_of_long_double Cases.five_store 1 2
  = Some (Spec.euclidean_distance sqrt_of_long_double
            (Cases.on_axis 2) (Cases.on_axis 4)) /\
  PositionsList.getDistance sqrt_of_long_double Cases.five_store 1 1
  = Some (S754_zero false).
Proof.
  split; [reflexivity|]. split; [reflexivity|].
  split; [reflexivity|]. split; [reflexivity|].
  destruct (getDistance_is_euclidean_distance sqrt_of_long_double
              Cases.five_store 1 2
              (Cases.on_axis 2) (Cases.on_axis 4) eq_refl eq_refl)
    as (D & _ & Z).
  split; [exact D|].
  apply Z; reflexivity.
Defined.

(** The distance from 2 to 4 on the first axis is 2. *)
Example getDistance_two :
  PositionsList.getDistance sqrt_of_long_double Cases.five_store 1 2
  = Some (ldouble_of_Z 2)
  /\ PositionsList.getDistance sqrt_of_double Cases.five_store 1 2
     = Some (ldouble_of_Z 2).
Proof. vm_compute. split; reflexivity. Qed.

(** A candidate with an infinite coordinate: its distance to itself is NaN,
    with either [sqrt], and NaN is not equal to zero. *)
Lemma getDistance_of_infinity :
  PositionsList.getPosition Cases.far_store 0
  = Some (PositionsList.Build_Position (S754_infinity false) Cases.l0
            Cases.l0 Cases.l0 Cases.l0) /\
  PositionsList.getDistance sqrt_of_long_double Cases.far_store 0 0
  = Some S754_nan /\
  PositionsList.getDistance sqrt_of_double Cases.far_store 0 0
  = Some S754_nan /\
  leqb S754_nan (S754_zero false) = false.
Proof. vm_compute. repeat split. Qed.

Lemma average_loop (n : Z) (ps : list PositionsList.Position)
    (x y z : ldouble) :
  fold_left (PositionsList.average_step n) ps (x, y, z)
  = (fold_left (fun acc p =>
                  ladd acc (ldiv (PositionsList.p0 p) (ldouble_of_Z n)))
       ps x,
     fold_left (fun acc p =>
                  ladd acc (ldiv (PositionsList.p1 p) (ldouble_of_Z n)))
       ps y,
     fold_left (fun acc p =>
                  ladd acc (ldiv (PositionsList.p2 p) (ldouble_of_Z n)))
       ps z).
Proof.
  revert x y z. induction ps as [|p ps IH]; intros x y z; [reflexivity|].
  simpl fold_left. now rewrite IH.
Qed.

(** The loop of [printAveragePosition].  Each number that it writes is the
    sum, from 0 and in the order of the store, of the quotients of one
    coordinate of the stored positions by their number [n] (the [int] that
    [size()] returns): every position is divided by [n] before it is
    added. *)
Lemma printAveragePosition_sums_quotients :
  forall pl : PositionsList.PositionsList,
    PositionsList.printAveragePosition pl
    = (Spec.quotient_sum (PositionsList.size pl) PositionsList.p0
         (PositionsList.mPositions pl),
       Spec.quotient_sum (PositionsList.size pl) PositionsList.p1
         (PositionsList.mPositions pl),
       Spec.quotient_sum (PositionsList.size pl) PositionsList.p2
         (PositionsList.mPositions pl)).
Proof.
  intros pl. unfold PositionsList.printAveragePosition. apply average_loop.
Qed.

(** Five candidates of first coordinates 1, 2, 4, 0, 0.  Their sum is 7,
    without rounding.  The first number written is [1/5 + 2/5 + 4/5], which
    is not 7 divided by 5 as a [long double]: the two differ by the last
    binary digit, and are written with the same six digits. *)
Lemma printAveragePosition_not_sum_divided :
  PositionsList.size Cases.five_store = 5 /\
  Spec.coordinate_sum PositionsList.p0
    (PositionsList.mPositions Cases.five_store)
  = ldouble_of_Z 7 /\
  fst (fst (PositionsList.printAveragePosition Cases.five_store))
  = S754_finite false 12912720851596686132 (-63) /\
  Spec.centroid_coordinate PositionsList.p0
    (PositionsList.mPositions Cases.five_store)
  = S754_finite false 12912720851596686131 (-63) /\
  fst (fst (PositionsList.printAveragePosition Cases.five_store))
  <> Spec.centroid_coordinate PositionsList.p0
       (PositionsList.mPositions Cases.five_store).
Proof. vm_compute. repeat split. discriminate. Qed.

(** C7.  [addPosition] does not look at what is stored: whatever the store
    and the position, one already stored or not, the vector has one element
    more, [size()] is one more (unless it was [INT_MAX], the last [int]),
    every candidate stored before is found unchanged at its index, and the
    new one comes after them. *)
Theorem addPosition_never_deduplicates :
  forall (pl : PositionsList.PositionsList) (p : PositionsList.Position),
    length (PositionsList.mPositions (PositionsList.addPosition pl p))
    = S (length (PositionsList.mPositions pl)) /\
    (PositionsList.size pl < INT_MAX ->
     PositionsList.size (PositionsList.addPosition pl p)
     = PositionsList.size pl + 1) /\
    (forall (i : Z) (q : PositionsList.Position),
        PositionsList.getPosition pl i = Some q ->
        PositionsList.getPosition (PositionsList.addPosition pl p) i
        = Some q) /\
    PositionsList.getPosition (PositionsList.addPosition pl p)
      (Z.of_nat (length (PositionsList.mPositions pl)))
    = Some p.
Proof.
  intros pl p. unfold PositionsList.addPosition, PositionsList.size,
    PositionsList.getPosition. cbn [PositionsList.mPositions].
  split; [|split; [|split]].
  - rewrite length_app. simpl. lia.
  - intros H. rewrite length_app. simpl length.
    rewrite Nat.add_1_r. now apply int_of_size_succ.
  - intros i q. apply at_app_old.
  - apply at_app_new.
Qed.

Lemma addPosition_never_deduplicates_witness :
  let pl := PositionsList.PositionsList_of (Cases.on_axis 1) in
  PositionsList.size pl < INT_MAX /\
  PositionsList.getPosition pl 0 = Some (Cases.on_axis 1) /\
  PositionsList.size (PositionsList.addPosition pl (Cases.on_axis 1))
  = PositionsList.size pl + 1 /\
  PositionsList.getPosition
    (PositionsList.addPosition pl (Cases.on_axis 1)) 0
  = Some (Cases.on_axis 1) /\
  PositionsList.getPosition
    (PositionsList.addPosition pl (Cases.on_axis 1)) 1
  = Some (Cases.on_axis 1).
Proof.
  intros pl.
  destruct (addPosition_never_deduplicates pl (Cases.on_axis 1))
    as (_ & S & Old & New).
  split; [reflexivity|]. split; [reflexivity|].
  split; [apply S; reflexivity|].
  split; [apply Old; reflexivity | exact New].
Defined.

(** An integer of at most 64 binary digits, and so every [int], converted
    to [long double] is converted back to itself. *)
Lemma ldouble_of_Z_exact (n : Z) :
  Z.abs n < 2 ^ 64 -> ldouble_to_Z (ldouble_of_Z n) = Some n.
Proof.
  intros H. unfold ldouble_to_Z, ldouble_of_Z.
  apply SFtoZ_SFofZ; [unfold lprec, lemax; lia | exact H].
Qed.

Lemma in_int_64 (n : Z) : in_int n -> Z.abs n < 2 ^ 64.
Proof.
  unfold in_int, INT_MIN, INT_MAX.
  change (2 ^ 64) with 18446744073709551616. lia.
Qed.

(** C6, as the code has it.  The combination identifier is the fifth
    [long double] of a [Position], next to the coordinates.  An identifier
    that is an integer [n] of at most 64 binary digits (an [int], say),
    stored there by either [addPosition], is read back by [getCombId] as
    the [long double] that it was stored as, and that one converts back to
    [n]: nothing of [n] is lost. *)
Theorem getCombId_reads_back_int :
  forall (pl : PositionsList.PositionsList) (x y z r : ldouble) (n : Z)
         (combSt : list Z),
    Z.abs n < 2 ^ 64 ->
    let p := PositionsList.Build_Position x y z r (ldouble_of_Z n) in
    let i := Z.of_nat (length (PositionsList.mPositions pl)) in
    PositionsList.addPosition_vec pl [x; y; z; r; ldouble_of_Z n] combSt
    = Some (PositionsList.addPosition pl p) /\
    PositionsList.getCombId (PositionsList.addPosition pl p) i
    = Some (ldouble_of_Z n) /\
    ldouble_to_Z (ldouble_of_Z n) = Some n.
Proof.
  intros pl x y z r n combSt Hn p i. split; [reflexivity|]. split.
  - unfold PositionsList.getCombId, PositionsList.coordinate,
      PositionsList.addPosition. cbn [PositionsList.mPositions].
    unfold i. rewrite at_app_new. apply Position_at_4.
  - now apply ldouble_of_Z_exact.
Qed.

Lemma getCombId_reads_back_int_witness :
  Z.abs 7 < 2 ^ 64 /\
  PositionsList.getCombId
    (PositionsList.addPosition PositionsList.PositionsList_
       (PositionsList.Build_Position Cases.l0 Cases.l0 Cases.l0
          Cases.l0 (ldouble_of_Z 7))) 0
  = Some (ldouble_of_Z 7) /\
  ldouble_to_Z (ldouble_of_Z 7) = Some 7.
Proof.
  assert (H : Z.abs 7 < 2 ^ 64) by reflexivity.
  split; [exact H|].
  exact (proj2 (getCombId_reads_back_int PositionsList.PositionsList_
                  Cases.l0 Cases.l0 Cases.l0 Cases.l0 7 [] H)).
Defined.

(** The identifier is not an integer of its own.  Four numbers added with
    the combination [7]: the identifier read back is 0, the combination is
    not stored.  Five numbers, the last one a half: the identifier read back
    is a half, which is no [int]. *)
Lemma getCombId_not_an_integer :
  (exists pl, Cases.four_numbers = Some pl /\
              PositionsList.getCombId pl 0 = Some (ldouble_of_Z 0)) /\
  (exists pl, Cases.five_numbers = Some pl /\
              PositionsList.getCombId pl 0 = Some Cases.half) /\
  (forall n : Z, in_int n -> ldouble_of_Z n <> Cases.half).
Proof.
  split; [eexists; split; reflexivity|].
  split; [eexists; split; reflexivity|].
  intros n Hn E.
  pose proof (ldouble_of_Z_exact n (in_int_64 n Hn)) as R. rewrite E in R.
  vm_compute in R. injection R as R. subst n.
  vm_compute in E. discriminate E.
Qed.

(** ** The order of the comparisons *)

Lemma SFcompare_key (a b : spec_float) :
  SFcompare a b
  = match SFkey a, SFkey b with
    | Some ka, Some kb => Some (key_compare ka kb)
    | _, _ => None
    end.
Proof.
  destruct a as [sa|sa| |sa ma ea], b as [sb|sb| |sb mb eb];
    try destruct sa; try destruct sb; try reflexivity;
    cbn [SFcompare SFkey key_compare]; rewrite ?Z.compare_refl.
  rewrite Z.compare_opp, (Z.compare_antisym ea eb).
  destruct (ea ?= eb); reflexivity.
Qed.

Lemma key_compare_refl (a : Z * Z * Z) : key_compare a a = Eq.
Proof.
  destruct a as [[a1 a2] a3]. unfold key_compare.
  now rewrite !Z.compare_refl.
Qed.

Lemma key_compare_Lt_trans (a b c : Z * Z * Z) :
  key_compare a b = Lt -> key_compare b c = Lt -> key_compare a c = Lt.
Proof.
  destruct a as [[a1 a2] a3], b as [[b1 b2] b3], c as [[c1 c2] c3].
  unfold key_compare.
  destruct (Z.compare_spec a1 b1), (Z.compare_spec b1 c1),
    (Z.compare_spec a1 c1); try lia; try discriminate; try reflexivity;
    destruct (Z.compare_spec a2 b2), (Z.compare_spec b2 c2),
      (Z.compare_spec a2 c2); try lia; try discriminate; try reflexivity;
    rewrite !Z.compare_lt_iff; lia.
Qed.

Lemma key_compare_Lt_Eq_trans (a b c : Z * Z * Z) :
  key_compare a b = Lt -> key_compare b c = Eq -> key_compare a c = Lt.
Proof.
  destruct a as [[a1 a2] a3], b as [[b1 b2] b3], c as [[c1 c2] c3].
  unfold key_compare.
  destruct (Z.compare_spec a1 b1), (Z.compare_spec b1 c1),
    (Z.compare_spec a1 c1); try lia; try discriminate; try reflexivity;
    destruct (Z.compare_spec a2 b2), (Z.compare_spec b2 c2),
      (Z.compare_spec a2 c2); try lia; try discriminate; try reflexivity;
    rewrite Z.compare_lt_iff, Z.compare_eq_iff, Z.compare_lt_iff; lia.
Qed.

(** [<] has no loop, and goes through [<] and [<=]. *)
Lemma SFltb_irrefl (a : spec_float) : SFltb a a = false.
Proof.
  unfold SFltb. rewrite SFcompare_key.
  destruct (SFkey a); [now rewrite key_compare_refl | reflexivity].
Qed.

Lemma SFltb_trans (a b c : spec_float) :
  SFltb a b = true -> SFltb b c = true -> SFltb a c = true.
Proof.
  unfold SFltb. rewrite !SFcompare_key.
  destruct (SFkey a) as [ka|], (SFkey b) as [kb|], (SFkey c) as [kc|];
    try discriminate.
  destruct (key_compare ka kb) eqn:E1; try discriminate.
  destruct (key_compare kb kc) eqn:E2; try discriminate.
  now rewrite (key_compare_Lt_trans _ _ _ E1 E2).
Qed.

Lemma SFltb_leb_trans (a b c : spec_float) :
  SFltb a b = true -> SFleb b c = true -> SFltb a c = true.
Proof.
  unfold SFltb, SFleb. rewrite !SFcompare_key.
  destruct (SFkey a) as [ka|], (SFkey b) as [kb|], (SFkey c) as [kc|];
    try discriminate.
  destruct (key_compare ka kb) eqn:E1; try discriminate.
  destruct (key_compare kb kc) eqn:E2; try discriminate.
  - now rewrite (key_compare_Lt_Eq_trans _ _ _ E1 E2).
  - now rewrite (key_compare_Lt_trans _ _ _ E1 E2).
Qed.

Lemma SFltb_leb (a b : spec_float) : SFltb a b = true -> SFleb a b = true.
Proof.
  unfold SFltb, SFleb. destruct (SFcompare a b) as [[| |]|]; easy.
Qed.

(** [a <= b] without [a < b] is [a == b]. *)
Lemma SFleb_not_ltb (a b : spec_float) :
  SFleb a b = true -> SFltb a b = false -> SFeqb a b = true.
Proof.
  unfold SFltb, SFleb, SFeqb. destruct (SFcompare a b) as [[| |]|]; easy.
Qed.

Lemma SFeqb_refl (a : spec_float) : a <> S754_nan -> SFeqb a a = true.
Proof.
  intros H. unfold SFeqb. rewrite SFcompare_key.
  destruct a as [s|s| |s m e]; try destruct s; try reflexivity;
    try (now rewrite key_compare_refl). 
  - now contradiction H.
  - cbn [SFkey]. now rewrite key_compare_refl.
  - cbn [SFkey]. now rewrite key_compare_refl.
Qed.

Lemma SFleb_not_nan (a b : spec_float) : SFleb a b = true -> a <> S754_nan /\ b <> S754_nan.
Proof.
  destruct a, b; try discriminate; split; discriminate.
Qed.

Lemma key_compare_Eq_eq (a b : Z * Z * Z) : key_compare a b = Eq -> a = b.
Proof.
  destruct a as [[a1 a2] a3], b as [[b1 b2] b3]. unfold key_compare.
  destruct (Z.compare_spec a1 b1); try discriminate.
  destruct (Z.compare_spec a2 b2); try discriminate.
  rewrite Z.compare_eq_iff. congruence.
Qed.

Lemma SFleb_trans (a b c : spec_float) :
  SFleb a b = true -> SFleb b c = true -> SFleb a c = true.
Proof.
  unfold SFleb. rewrite !SFcompare_key.
  destruct (SFkey a) as [ka|], (SFkey b) as [kb|], (SFkey c) as [kc|];
    try discriminate.
  destruct (key_compare ka kb) eqn:E1; try discriminate;
    destruct (key_compare kb kc) eqn:E2; try discriminate; intros _ _.
  - apply key_compare_Eq_eq in E1, E2. subst.
    now rewrite key_compare_refl.
  - apply key_compare_Eq_eq in E1. subst. now rewrite E2.
  - now rewrite (key_compare_Lt_Eq_trans _ _ _ E1 E2).
  - now rewrite (key_compare_Lt_trans _ _ _ E1 E2).
Qed.

Lemma SFleb_ltb_trans (a b c : spec_float) :
  SFleb a b = true -> SFltb b c = true -> SFltb a c = true.
Proof.
  unfold SFleb, SFltb. rewrite !SFcompare_key.
  destruct (SFkey a) as [ka|], (SFkey b) as [kb|], (SFkey c) as [kc|];
    try discriminate.
  destruct (key_compare ka kb) eqn:E1; try discriminate;
    destruct (key_compare kb kc) eqn:E2; try discriminate; intros _ _.
  - apply key_compare_Eq_eq in E1. subst. now rewrite E2.
  - now rewrite (key_compare_Lt_trans _ _ _ E1 E2).
Qed.

Lemma SFleb_refl (a : spec_float) : a <> S754_nan -> SFleb a a = true.
Proof.
  intros H. apply SFeqb_refl in H. revert H. unfold SFeqb, SFleb.
  destruct (SFcompare a a) as [[| |]|]; easy.
Qed.

Lemma SFltb_not_nan (a b : spec_float) :
  SFltb a b = true -> a <> S754_nan /\ b <> S754_nan.
Proof.
  destruct a, b; try discriminate; split; discriminate.
Qed.

(** ** The extremes of the delay statistics *)

(** The minimum kept by the loop, from [m0]: it is [m0] or one of the
    delays, it is at most [m0], and no delay is below it. *)
Lemma delay_minimum_least (ds : list double) (m0 : double) :
  m0 <> S754_nan ->
  let m := Spec.delay_minimum m0 ds in
  (m = m0 \/ In m ds) /\
  dleb m m0 = true /\
  (forall d, In d ds -> dltb d m = false).
Proof.
  unfold Spec.delay_minimum, dleb, dltb.
  revert m0. induction ds as [|c ds IH]; intros m0 Hm0; cbn zeta.
  - simpl. repeat split; [now left | now apply SFleb_refl | tauto].
  - simpl fold_left.
    set (m1 := if SFltb c m0 then c else m0).
    assert (H1 : m1 <> S754_nan).
    { unfold m1. destruct (SFltb c m0) eqn:E; [|exact Hm0].
      now apply SFltb_not_nan in E. }
    assert (L1 : SFleb m1 m0 = true).
    { unfold m1. destruct (SFltb c m0) eqn:E.
      - now apply SFltb_leb.
      - now apply SFleb_refl. }
    destruct (IH m1 H1) as (M & L & B). cbn zeta in M, L, B.
    set (m := fold_left _ ds m1) in *.
    split; [|split].
    + destruct M as [M|M]; [|right; now right].
      rewrite M. unfold m1. destruct (SFltb c m0); [right; now left | now left].
    + now apply (SFleb_trans m m1 m0).
    + intros d [Hd|Hd]; [subst d | now apply B].
      destruct (SFltb c m) eqn:E; [exfalso | reflexivity].
      pose proof (SFltb_leb_trans _ _ _ E L) as E1.
      unfold m1 in E1. destruct (SFltb c m0) eqn:E0.
      * rewrite SFltb_irrefl in E1. discriminate.
      * rewrite E0 in E1. discriminate.
Qed.

Lemma delay_maximum_greatest (ds : list double) (m0 : double) :
  m0 <> S754_nan ->
  let m := Spec.delay_maximum m0 ds in
  (m = m0 \/ In m ds) /\
  dleb m0 m = true /\
  (forall d, In d ds -> dltb m d = false).
Proof.
  unfold Spec.delay_maximum, dleb, dltb.
  revert m0. induction ds as [|c ds IH]; intros m0 Hm0; cbn zeta.
  - simpl. repeat split; [now left | now apply SFleb_refl | tauto].
  - simpl fold_left.
    set (m1 := if SFltb m0 c then c else m0).
    assert (H1 : m1 <> S754_nan).
    { unfold m1. destruct (SFltb m0 c) eqn:E; [|exact Hm0].
      now apply SFltb_not_nan in E. }
    assert (L1 : SFleb m0 m1 = true).
    { unfold m1. destruct (SFltb m0 c) eqn:E.
      - now apply SFltb_leb.
      - now apply SFleb_refl. }
    destruct (IH m1 H1) as (M & L & B). cbn zeta in M, L, B.
    set (m := fold_left _ ds m1) in *.
    split; [|split].
    + destruct M as [M|M]; [|right; now right].
      rewrite M. unfold m1. destruct (SFltb m0 c); [right; now left | now left].
    + now apply (SFleb_trans m0 m1 m).
    + intros d [Hd|Hd]; [subst d | now apply B].
      destruct (SFltb m c) eqn:E; [exfalso | reflexivity].
      pose proof (SFleb_ltb_trans _ _ _ L E) as E1.
      unfold m1 in E1. destruct (SFltb m0 c) eqn:E0.
      * rewrite SFltb_irrefl in E1. discriminate.
      * rewrite E0 in E1. discriminate.
Qed.

Lemma delay_report_extremes (st : DelayStats) (ds : list double) :
  Spec.delay_report st ds ->
  stats_min st = Spec.delay_minimum (double_of_Z 100) ds /\
  stats_max st = Spec.delay_maximum (double_of_Z 0) ds.
Proof.
  intros [ss aSatId aTimestamp|sg];
    unfold Stations.printDelayStats, Signal.printDelayStats;
    cbn [stats_min stats_max]; unfold delay_loop;
    match goal with
    | |- context [fold_left delay_step ?l _] =>
        destruct (delay_loop_from l delay_init) as (_ & Mi & Ma)
    end; rewrite Mi, Ma; split; reflexivity.
Qed.

Lemma delay_report_bounds (st : DelayStats) (ds : list double) :
  Spec.delay_report st ds ->
  (stats_min st = double_of_Z 100 \/ In (stats_min st) ds) /\
  dleb (stats_min st) (double_of_Z 100) = true /\
  (stats_max st = double_of_Z 0 \/ In (stats_max st) ds) /\
  dleb (double_of_Z 0) (stats_max st) = true /\
  (forall d, In d ds ->
             dltb d (stats_min st) = false /\
             dltb (stats_max st) d = false).
Proof.
  intros R. destruct (delay_report_extremes st ds R) as [Emin Emax].
  assert (N100 : double_of_Z 100 <> S754_nan) by (vm_compute; discriminate).
  assert (N0 : double_of_Z 0 <> S754_nan) by (vm_compute; discriminate).
  destruct (delay_minimum_least ds _ N100) as (M1 & M2 & M3).
  destruct (delay_maximum_greatest ds _ N0) as (X1 & X2 & X3).
  rewrite Emin, Emax. repeat split; auto.
Qed.

(** Whatever the delays, the minimum written by either [printDelayStats] is
    100 or one of the delays, it is at most 100, and no delay is below it;
    the maximum written is 0 or one of the delays, it is at least 0, and no
    delay is above it. *)
Theorem printDelayStats_extremes_with_initial_values :
  forall (st : DelayStats) (ds : list double),
    Spec.delay_report st ds ->
    (stats_min st = double_of_Z 100 \/ In (stats_min st) ds) /\
    dleb (stats_min st) (double_of_Z 100) = true /\
    (stats_max st = double_of_Z 0 \/ In (stats_max st) ds) /\
    dleb (double_of_Z 0) (stats_max st) = true /\
    (forall d, In d ds ->
               dltb d (stats_min st) = false /\
               dltb (stats_max st) d = false).
Proof.
  intros st ds R. now apply delay_report_bounds.
Qed.

(** When one delay at least is at most 100, the minimum written is the
    minimum of the delays: it is equal to one of them and none is below it.
    When one delay at least is not below 0, the maximum written is the
    maximum of the delays. *)
Theorem printDelayStats_extremes_in_range :
  forall (st : DelayStats) (ds : list double),
    Spec.delay_report st ds ->
    ((exists d, In d ds /\ dleb d (double_of_Z 100) = true) ->
     (exists d, In d ds /\ deqb d (stats_min st) = true) /\
     (forall d, In d ds -> dltb d (stats_min st) = false)) /\
    ((exists d, In d ds /\ dleb (double_of_Z 0) d = true) ->
     (exists d, In d ds /\ deqb d (stats_max st) = true) /\
     (forall d, In d ds -> dltb (stats_max st) d = false)).
Proof.
  intros st ds R.
  destruct (delay_report_bounds st ds R) as (M1 & M2 & X1 & X2 & B).
  split; intros (d & Hd & Hle); (split; [|intros d' Hd'; now apply B]).
  - destruct M1 as [M1|M1].
    + exists d. split; [exact Hd|]. rewrite M1. unfold deqb.
      apply SFleb_not_ltb; [exact Hle|].
      rewrite <- M1. now apply B.
    + exists (stats_min st). split; [exact M1|]. unfold deqb.
      apply SFeqb_refl. now apply SFleb_not_nan in M2.
  - destruct X1 as [X1|X1].
    + exists d. split; [exact Hd|]. rewrite X1. unfold deqb.
      assert (E : SFeqb (double_of_Z 0) d = true).
      { apply SFleb_not_ltb; [exact Hle|]. rewrite <- X1. now apply B. }
      revert E. unfold SFeqb.
      rewrite (SFcompare_key d), (SFcompare_key (double_of_Z 0) d).
      destruct (SFkey d) as [kd|], (SFkey (double_of_Z 0)) as [k0|];
        try discriminate.
      destruct (key_compare k0 kd) eqn:E; try discriminate.
      apply key_compare_Eq_eq in E. subst. now rewrite key_compare_refl.
    + exists (stats_max st). split; [exact X1|]. unfold deqb.
      apply SFeqb_refl. now apply SFleb_not_nan in X2.
Qed.

(** ** A [double] through a [long double] *)

Lemma iter_pos_iter {A : Type} (f : A -> A) (n : positive) (x : A) :
  iter_pos f n x = Pos.iter f x n.
Proof.
  revert x. induction n as [n IH|n IH|]; intros x; simpl.
  - rewrite !IH. now rewrite <- !Pos.iter_swap.
  - now rewrite !IH.
  - reflexivity.
Qed.

(** Shifting to the right the digits that [shl_align] added gives back the
    number, and nothing is lost. *)
Lemma shr_iter_xO (m k : positive) :
  iter_pos shr_1 k (Build_shr_record (Zpos (Pos.iter xO m k)) false false)
  = Build_shr_record (Zpos m) false false.
Proof.
  rewrite iter_pos_iter. revert m.
  induction k as [|k IH] using Pos.peano_ind; intros m.
  - reflexivity.
  - rewrite Pos.iter_succ, Pos.iter_succ_r. now rewrite (IH (xO m)).
Qed.

Section FloatShifted.

Variables prec emax : Z.

(** Rounding a canonical number that was given [k] more digits, all zeros,
    gives the number back. *)
Lemma binary_round_aux_shifted (s : bool) (m k : positive) (e : Z) :
  canonical_mantissa prec emax m e = true -> e <= emax - prec ->
  binary_round_aux prec emax s (Zpos (Pos.iter xO m k)) (e - Zpos k)
    loc_Exact
  = S754_finite s m e.
Proof.
  intros C B. pose proof C as C'. unfold canonical_mantissa in C'.
  apply Z.eqb_eq in C'.
  unfold binary_round_aux, shr_fexp.
  cbn [Zdigits2 shr_record_of_loc].
  rewrite digits2_pos_iter_xO, Pos2Z.inj_add.
  replace (Zpos (digits2_pos m) + Zpos k + (e - Zpos k))
    with (Zpos (digits2_pos m) + e) by lia.
  rewrite C'. replace (e - (e - Zpos k)) with (Zpos k) by lia.
  cbn [shr]. rewrite shr_iter_xO.
  cbn [shr_m loc_of_shr_record round_nearest_even Zdigits2
       shr_record_of_loc].
  replace (e - Zpos k + Zpos k) with e by lia.
  rewrite C', Z.sub_diag. cbn [shr shr_m].
  apply Z.leb_le in B. now rewrite B.
Qed.

End FloatShifted.

Section FloatWidening.

Variables prec emax prec' emax' : Z.

(** A number of the format [prec], [emax] converted to a format that has
    more digits and a larger range, and back, is the same number. *)
Lemma SFconv_widen_narrow (v : spec_float) :
  prec <= prec' -> emax + prec' - prec <= emax' ->
  valid_binary prec emax v = true ->
  SFconv prec emax (SFconv prec' emax' v) = v.
Proof.
  intros Hp He V.
  destruct v as [s|s| |s m e]; try reflexivity.
  cbn [valid_binary] in V. unfold bounded in V.
  apply andb_prop in V as [C B]. apply Z.leb_le in B.
  pose proof C as C'. unfold canonical_mantissa in C'.
  apply Z.eqb_eq in C'.
  cbn [SFconv]. unfold binary_round.
  set (ez := fexp prec' emax' (Zpos (digits2_pos m) + e)).
  assert (Hez : ez <= e) by (unfold ez, fexp, emin in *; lia).
  destruct (shl_align_canonical prec' emax' m e ez eq_refl Hez)
    as (E1 & E2 & E3).
  unfold shl_align in *.
  destruct (ez - e) as [|k|k] eqn:K; try lia; cbn [fst snd] in *.
  - (* the exponent is the same *)
    rewrite <- E1 in E2.
    rewrite binary_round_aux_canonical; [| assumption | lia].
    cbn [SFconv]. unfold binary_round.
    rewrite C'. unfold shl_align. rewrite Z.sub_diag.
    apply binary_round_aux_canonical; assumption.
  - (* [k] digits were added *)
    rewrite binary_round_aux_canonical; [| assumption | lia].
    cbn [SFconv]. unfold binary_round.
    rewrite digits2_pos_iter_xO, Pos2Z.inj_add.
    replace (Zpos (digits2_pos m) + Zpos k + ez)
      with (Zpos (digits2_pos m) + e) by lia.
    rewrite C'. unfold shl_align.
    replace (e - ez) with (Zpos k) by lia.
    replace ez with (e - Zpos k) by lia.
    now apply binary_round_aux_shifted.
Qed.

End FloatWidening.

Lemma double_through_ldouble (v : double) :
  dvalid v = true -> double_of_ldouble (ldouble_of_double v) = v.
Proof.
  intros V. unfold double_of_ldouble, ldouble_of_double.
  apply SFconv_widen_narrow;
    [unfold dprec, lprec; lia | unfold dprec, lprec, demax, lemax; lia
    | exact V].
Qed.

(** ** From a signal to stations *)

(** What the getters of a station return, as a tuple of a signal. *)
Lemma Station_aR_view (raw : Station.Station) (it : Signal.tuple5)
    (at0 : ldouble) :
  dvalid (Signal.get3 it) = true ->
  Spec.station_view
    (Station.Station_aR raw (Signal.get0 it) (Signal.get1 it)
       (Signal.get2 it) at0 (ldouble_of_double (Signal.get3 it))
       (Signal.get4 it))
  = it.
Proof.
  intros V. unfold Spec.station_view, Station.Station_aR, Station.getX,
    Station.getY, Station.getZ, Station.getR, Station.getDelay.
  cbn [Station.x Station.y Station.z Station.r Station.delay].
  rewrite double_through_ldouble by exact V. now destruct it.
Qed.

(** [convertStationToSignal] appends to the stations one station for each
    ground station of the signal, in their order, with the coordinates, the
    range and the delay of the ground station: the range is passed as a
    [long double] and stored as a [double], and comes out as it was. *)
Theorem convertStationToSignal_hands_over_ground_stations :
  forall (raw : Station.Station) (sg : Signal.Signal)
         (ss : Stations.Stations),
    Forall (fun it => dvalid (Signal.get3 it) = true)
      (Signal.mGroundStations sg) ->
    map Spec.station_view
      (Stations.mStations (Signal.convertStationToSignal raw sg ss))
    = map Spec.station_view (Stations.mStations ss)
      ++ Signal.mGroundStations sg.
Proof.
  intros raw sg ss V. rewrite convertStationToSignal_all, map_app, map_map.
  f_equal. induction V as [|it l Hit _ IH]; [reflexivity|].
  simpl. rewrite IH. f_equal. now apply Station_aR_view.
Qed.

(** The delay statistics of the stations that a signal was converted to, in
    a collection that was empty, are those of the signal: the same mean,
    minimum and maximum. *)
Theorem printDelayStats_after_convertStationToSignal :
  forall (raw : Station.Station) (sg : Signal.Signal) (mT : ldouble)
         (aSatId : Z) (aTimestamp : double),
    let ss :=
      Signal.convertStationToSignal raw sg (Stations.Build [] mT) in
    let st := Stations.printDelayStats ss aSatId aTimestamp in
    stats_mean st = stats_mean (Signal.printDelayStats sg) /\
    stats_min st = stats_min (Signal.printDelayStats sg) /\
    stats_max st = stats_max (Signal.printDelayStats sg).
Proof.
  intros raw sg mT aSatId aTimestamp ss st.
  assert (E : map Station.getDelay (Stations.mStations ss)
              = map Signal.get4 (Signal.mGroundStations sg)).
  { unfold ss. rewrite convertStationToSignal_all.
    cbn [Stations.mStations app]. now rewrite map_map. }
  assert (L : length (Stations.mStations ss)
              = length (Signal.mGroundStations sg)).
  { rewrite <- (length_map Station.getDelay), E. apply length_map. }
  unfold st, Stations.printDelayStats, Signal.printDelayStats.
  cbn [stats_mean stats_min stats_max]. rewrite E, L. repeat split.
Qed.

(** ** Stations *)

(** [Station( vec )] reads the four numbers that [stationToVector] writes:
    it fails on fewer than four numbers, and only then; the station that it
    builds gives back the first four numbers; and a station goes through a
    vector with its coordinates and its range. *)
Theorem Station_vec_stationToVector :
  (forall (raw : Station.Station) (vec : list double),
      Station.Station_vec raw vec = None <-> (length vec < 4)%nat) /\
  (forall (raw : Station.Station) (vec : list double) (st : Station.Station),
      Station.Station_vec raw vec = Some st ->
      Station.stationToVector st = firstn 4 vec) /\
  (forall raw s : Station.Station,
      exists st,
        Station.Station_vec raw (Station.stationToVector s) = Some st /\
        Station.stationToVector st = Station.stationToVector s /\
        Station.t st = Station.t raw /\
        Station.getDelay st = Station.getDelay raw).
Proof.
  split; [|split].
  - intros raw [|v0 [|v1 [|v2 [|v3 vec]]]]; simpl;
      (split; [intros H; (lia || discriminate H) | intros H; (reflexivity || lia)]).
  - intros raw [|v0 [|v1 [|v2 [|v3 vec]]]] st; try discriminate.
    intros H. injection H as <-. reflexivity.
  - intros raw s. eexists. split; [reflexivity|]. repeat split.
Qed.

Lemma Station_vec_stationToVector_witness :
  Station.Station_vec Cases.raw0 [Cases.d0; Cases.d0; Cases.d0]
  = None /\
  Station.stationToVector Cases.slow_station
  = firstn 4 (Station.stationToVector Cases.slow_station ++ [Cases.d0]).
Proof.
  destruct Station_vec_stationToVector as (F & G & _).
  split.
  - apply F. simpl. lia.
  - apply (G Cases.raw0
             (Station.stationToVector Cases.slow_station ++ [Cases.d0])
             (Station.Build Cases.d0 Cases.d0 Cases.d0 Cases.l0 Cases.d0
                Cases.l0 Cases.d0)).
    reflexivity.
Defined.

Lemma at_None {A : Type} (v : list A) (i : Z) :
  at_ v i = None <-> i < 0 \/ Z.of_nat (length v) <= i.
Proof.
  unfold at_. destruct (Z.ltb_spec i 0) as [H|H].
  - split; [now left | reflexivity].
  - rewrite nth_error_None. lia.
Qed.

(** [setR] writes the range and the time difference and nothing else, and
    it reads the receive time only: a second [setR] undoes the first.  For
    a send time equal to the receive time the range is zero when that time
    is finite, and NaN when it is not. *)
Theorem setR_overwrites :
  forall (s : Station.Station) (a b : ldouble),
    Station.setR (Station.setR s a) b = Station.setR s b /\
    Station.getX (Station.setR s a) = Station.getX s /\
    Station.getY (Station.setR s a) = Station.getY s /\
    Station.getZ (Station.setR s a) = Station.getZ s /\
    Station.t (Station.setR s a) = Station.t s /\
    Station.getDelay (Station.setR s a) = Station.getDelay s /\
    (is_finite (Station.t s) = true ->
     Station.getR (Station.setR s (Station.t s)) = S754_zero false /\
     Station.dt (Station.setR s (Station.t s)) = S754_zero false) /\
    (is_finite (Station.t s) = false ->
     Station.getR (Station.setR s (Station.t s)) = S754_nan).
Proof.
  intros s a b. do 6 (split; [reflexivity|]). split.
  - intros F. unfold Station.getR, Station.setR.
    cbn [Station.r Station.dt Station.t].
    unfold lsub. rewrite SFsub_diag by exact F. split; reflexivity.
  - intros F. unfold Station.getR, Station.setR. cbn [Station.r Station.t].
    unfold lsub. now rewrite SFsub_diag_nan.
Qed.

Lemma setR_overwrites_witness :
  is_finite (Station.t Cases.late_station) = true /\
  Station.getR
    (Station.setR Cases.late_station (Station.t Cases.late_station))
  = S754_zero false /\
  is_finite (S754_infinity false) = false /\
  Station.getR
    (Station.setR
       (Station.Station_at Cases.raw0 Cases.d0 Cases.d0 Cases.d0
          (S754_infinity false))
       (S754_infinity false))
  = S754_nan.
Proof.
  split; [reflexivity|]. split.
  - apply (setR_overwrites Cases.late_station Cases.l0 Cases.l0).
    reflexivity.
  - split; [reflexivity|].
    apply (setR_overwrites
             (Station.Station_at Cases.raw0 Cases.d0 Cases.d0 Cases.d0
                (S754_infinity false)) Cases.l0 Cases.l0).
    reflexivity.
Defined.

(** A station added by [addStations] with its receive time is the last one
    of the collection, and once [setR] is called on it its range is
    [(t - t0) * c]: the members that the constructor left without a value
    do not count for it. *)
Theorem addStations_then_setR :
  forall (raw : Station.Station) (ss : Stations.Stations)
         (ax ay az : double) (at_ aT0 : ldouble),
  exists s,
    Stations.getStation (Stations.addStations raw ss ax ay az at_)
      (Z.of_nat (length (Stations.mStations ss))) = Some s /\
    Station.getX s = ax /\ Station.getY s = ay /\ Station.getZ s = az /\
    Station.getR (Station.setR s aT0) = Spec.range at_ aT0 /\
    Station.dt (Station.setR s aT0) = lsub at_ aT0.
Proof.
  intros. eexists. split.
  - unfold Stations.getStation, Stations.addStations, Stations.addStation.
    cbn [Stations.mStations]. apply at_app_new.
  - do 3 (split; [reflexivity|]). split; [apply setR_range | reflexivity].
Qed.

(** [getStation(i)] fails exactly when [i] is negative or not below the
    number of stations; after [clear] it fails for every [i], [size()] is 0
    and the time of the collection is kept. *)
Theorem getStation_out_of_range :
  forall (ss : Stations.Stations) (i : Z),
    (Stations.getStation ss i = None <->
     i < 0 \/ Z.of_nat (length (Stations.mStations ss)) <= i) /\
    Stations.getStation (Stations.clear ss) i = None /\
    Stations.size (Stations.clear ss) = 0 /\
    Stations.mT (Stations.clear ss) = Stations.mT ss.
Proof.
  intros ss i. split; [apply at_None|]. split; [|split; reflexivity].
  apply at_None. simpl. lia.
Qed.

(** ** The candidate store, again *)

(** The accessors of the store fail exactly when the index is negative or
    not below the number of candidates, and return otherwise the slots of
    the candidate at that index. *)
Theorem PositionsList_accessors :
  forall (pl : PositionsList.PositionsList) (i : Z),
    (PositionsList.getPosition pl i = None <->
     i < 0 \/ Z.of_nat (length (PositionsList.mPositions pl)) <= i) /\
    PositionsList.getX pl i
    = option_map PositionsList.p0 (PositionsList.getPosition pl i) /\
    PositionsList.getY pl i
    = option_map PositionsList.p1 (PositionsList.getPosition pl i) /\
    PositionsList.getZ pl i
    = option_map PositionsList.p2 (PositionsList.getPosition pl i) /\
    PositionsList.getR pl i
    = option_map PositionsList.p3 (PositionsList.getPosition pl i) /\
    PositionsList.getCombId pl i
    = option_map PositionsList.p4 (PositionsList.getPosition pl i).
Proof.
  intros pl i. split; [apply at_None|].
  unfold PositionsList.getX, PositionsList.getY, PositionsList.getZ,
    PositionsList.getR, PositionsList.getCombId, PositionsList.coordinate,
    PositionsList.getPosition.
  destruct (at_ (PositionsList.mPositions pl) i); repeat split.
Qed.

(** [addPosition( aPosVec, combSt )] by the number of numbers given: fewer
    than three, it fails and adds nothing; three or more, it adds one
    candidate made of the first three numbers, of the fourth one if there is
    one (0 if not) and of the fifth one if there are five numbers exactly
    (0 if not: with six numbers or more the fifth one is dropped).  The
    vector [combSt] changes nothing. *)
Theorem addPosition_vec_by_size :
  forall (pl : PositionsList.PositionsList) (aPosVec : list ldouble)
         (combSt : list Z),
    ((length aPosVec < 3)%nat ->
     PositionsList.addPosition_vec pl aPosVec combSt = None) /\
    ((3 <= length aPosVec)%nat ->
     PositionsList.addPosition_vec pl aPosVec combSt
     = Some (PositionsList.addPosition pl
               (PositionsList.Build_Position
                  (nth 0 aPosVec (ldouble_of_Z 0))
                  (nth 1 aPosVec (ldouble_of_Z 0))
                  (nth 2 aPosVec (ldouble_of_Z 0))
                  (nth 3 aPosVec (ldouble_of_Z 0))
                  (if Nat.eqb (length aPosVec) 5
                   then nth 4 aPosVec (ldouble_of_Z 0)
                   else ldouble_of_Z 0)))) /\
    PositionsList.addPosition_vec pl aPosVec combSt
    = PositionsList.addPosition_vec pl aPosVec [].
Proof.
  intros pl [|v0 [|v1 [|v2 [|v3 [|v4 [|v5 vec]]]]]] combSt;
    (split; [intros H; simpl in H; (lia || reflexivity)|]);
    (split; [intros H; simpl in H; (lia || reflexivity)|]);
    reflexivity.
Qed.

Lemma addPosition_vec_by_size_witness :
  PositionsList.addPosition_vec PositionsList.PositionsList_
    [Cases.l0; Cases.l0] [7] = None /\
  PositionsList.addPosition_vec PositionsList.PositionsList_
    [Cases.l0; Cases.l0; Cases.l0; Cases.l0; Cases.half; Cases.half] [7]
  = Some (PositionsList.addPosition PositionsList.PositionsList_
            (PositionsList.Build_Position Cases.l0 Cases.l0 Cases.l0
               Cases.l0 Cases.l0)).
Proof.
  split.
  - apply (proj1 (addPosition_vec_by_size PositionsList.PositionsList_
                    [Cases.l0; Cases.l0] [7])). simpl. lia.
  - apply (proj1 (proj2 (addPosition_vec_by_size
                           PositionsList.PositionsList_
                           [Cases.l0; Cases.l0; Cases.l0; Cases.l0;
                            Cases.half; Cases.half] [7]))). simpl. lia.
Defined.

Lemma addPositions_all (l : list PositionsList.Position)
    (pl : PositionsList.PositionsList) :
  PositionsList.mPositions (PositionsList.addPositions pl l)
  = PositionsList.mPositions pl ++ l.
Proof.
  unfold PositionsList.addPositions.
  revert pl. induction l as [|p l IH]; intros pl.
  - simpl. now rewrite app_nil_r.
  - simpl fold_left. rewrite IH.
    cbn [PositionsList.addPosition PositionsList.mPositions].
    now rewrite <- app_assoc.
Qed.

Lemma firstn_succ_nth_error {A : Type} (l : list A) (n : nat) (a : A) :
  nth_error l n = Some a -> firstn (S n) l = firstn n l ++ [a].
Proof.
  revert n. induction l as [|b l IH]; intros [|n] H; try discriminate.
  - injection H as ->. reflexivity.
  - simpl in H. change (firstn (S (S n)) (b :: l)) with (b :: firstn (S n) l).
    rewrite (IH n H). reflexivity.
Qed.

Lemma addPositions_from_turns (pl aList : PositionsList.PositionsList)
    (n : nat) :
  (n <= length (PositionsList.mPositions aList))%nat ->
  fold_left
    (fun acc i =>
       match acc with
       | Some a =>
           match PositionsList.getPosition aList (Z.of_nat i) with
           | Some p => Some (PositionsList.addPosition a p)
           | None => None
           end
       | None => None
       end)
    (seq 0 n) (Some pl)
  = Some (PositionsList.Build
            (PositionsList.mPositions pl
             ++ firstn n (PositionsList.mPositions aList))).
Proof.
  induction n as [|n IH]; intros H.
  - simpl. rewrite app_nil_r. now destruct pl.
  - rewrite seq_S, fold_left_app, IH by lia. cbn [fold_left Nat.add].
    unfold PositionsList.getPosition. rewrite at_nth_error.
    destruct (nth_error (PositionsList.mPositions aList) n) as [p|] eqn:E.
    + rewrite (firstn_succ_nth_error _ _ _ E).
      unfold PositionsList.addPosition. cbn [PositionsList.mPositions].
      now rewrite app_assoc.
    + apply nth_error_None in E. lia.
Qed.

(** The two [addPositions] append the positions given after those of the
    store, in their order; the one that takes a store takes them all as long
    as their number is an [int], so that a store added to itself has every
    candidate twice. *)
Theorem addPositions_appends :
  forall (pl : PositionsList.PositionsList),
    (forall l : list PositionsList.Position,
        PositionsList.mPositions (PositionsList.addPositions pl l)
        = PositionsList.mPositions pl ++ l) /\
    (forall aList : PositionsList.PositionsList,
        Z.of_nat (length (PositionsList.mPositions aList)) <= INT_MAX ->
        PositionsList.addPositions_from pl aList
        = Some (PositionsList.addPositions pl
                  (PositionsList.mPositions aList))) /\
    (Z.of_nat (length (PositionsList.mPositions pl)) <= INT_MAX ->
     exists pl',
       PositionsList.addPositions_from pl pl = Some pl' /\
       PositionsList.mPositions pl'
       = PositionsList.mPositions pl ++ PositionsList.mPositions pl).
Proof.
  intros pl.
  assert (F : forall aList : PositionsList.PositionsList,
             Z.of_nat (length (PositionsList.mPositions aList)) <= INT_MAX ->
             PositionsList.addPositions_from pl aList
             = Some (PositionsList.addPositions pl
                       (PositionsList.mPositions aList))).
  { intros aList H. unfold PositionsList.addPositions_from.
    unfold PositionsList.size. rewrite int_of_size_small by exact H.
    rewrite Nat2Z.id, addPositions_from_turns by lia.
    rewrite firstn_all. f_equal.
    pose proof (addPositions_all (PositionsList.mPositions aList) pl) as E.
    destruct (PositionsList.addPositions pl _) as [ps]. simpl in E.
    now rewrite E. }
  split; [intros l; apply addPositions_all|]. split; [exact F|].
  intros H. eexists. split; [apply F; exact H|]. apply addPositions_all.
Qed.

Lemma addPositions_appends_witness :
  Z.of_nat (length (PositionsList.mPositions Cases.five_store)) <= INT_MAX /\
  PositionsList.addPositions_from Cases.five_store Cases.five_store
  = Some (PositionsList.addPositions Cases.five_store
            (PositionsList.mPositions Cases.five_store)).
Proof.
  assert (H : Z.of_nat (length (PositionsList.mPositions Cases.five_store))
              <= INT_MAX) by (vm_compute; discriminate).
  split; [exact H|].
  apply (proj1 (proj2 (addPositions_appends Cases.five_store))). exact H.
Defined.

Section FloatRoot.

Variables prec emax : Z.

(** A square root is never negative. *)
Lemma SFsqrt_not_negative (v : spec_float) :
  is_negative (SFsqrt prec emax v) = false.
Proof.
  destruct v as [s|s| |s m e]; try destruct s; try reflexivity.
  cbn [SFsqrt].
  destruct (SFsqrt_core_binary prec emax (Zpos m) e) as [[mz ez] lz].
  apply binary_round_aux_not_negative.
Qed.

End FloatRoot.

Lemma sqrt_not_negative (o : sqrt_overload) (v : ldouble) :
  is_negative (sqrt o v) = false.
Proof.
  destruct o; unfold sqrt.
  - unfold ldouble_of_double. apply SFconv_not_negative.
    apply SFsqrt_not_negative.
  - apply SFsqrt_not_negative.
Qed.

Lemma getDistance_invalid (o : sqrt_overload)
    (pl : PositionsList.PositionsList) (i j : Z) :
  PositionsList.getPosition pl i = None \/
  PositionsList.getPosition pl j = None ->
  PositionsList.getDistance o pl i j = None.
Proof.
  unfold PositionsList.getPosition, PositionsList.getDistance,
    PositionsList.getX, PositionsList.coordinate.
  intros [H|H]; rewrite H; [reflexivity|].
  destruct (at_ (PositionsList.mPositions pl) i) as [p|]; [|reflexivity].
  now rewrite Position_at_0.
Qed.

(** [getDistance(i, j)] fails exactly when one of the two indices is
    negative or not below the number of candidates. *)
Theorem getDistance_out_of_range :
  forall (o : sqrt_overload) (pl : PositionsList.PositionsList) (i j : Z),
    let n := Z.of_nat (length (PositionsList.mPositions pl)) in
    PositionsList.getDistance o pl i j = None <->
    (i < 0 \/ n <= i) \/ (j < 0 \/ n <= j).
Proof.
  intros o pl i j n. unfold n.
  rewrite <- !(at_None (PositionsList.mPositions pl)).
  change (at_ (PositionsList.mPositions pl) i)
    with (PositionsList.getPosition pl i).
  change (at_ (PositionsList.mPositions pl) j)
    with (PositionsList.getPosition pl j).
  split; [|apply getDistance_invalid].
  destruct (PositionsList.getPosition pl i) as [p|] eqn:Hp; [|now left].
  destruct (PositionsList.getPosition pl j) as [q|] eqn:Hq; [|now right].
  rewrite (getDistance_valid o pl i j p q Hp Hq). discriminate.
Qed.

(** A distance returned by [getDistance] is never negative (it is a number
    that is not negative, or NaN). *)
Theorem getDistance_never_negative :
  forall (o : sqrt_overload) (pl : PositionsList.PositionsList) (i j : Z)
         (d : ldouble),
    PositionsList.getDistance o pl i j = Some d -> is_negative d = false.
Proof.
  intros o pl i j d H.
  destruct (PositionsList.getPosition pl i) as [p|] eqn:Hp.
  - destruct (PositionsList.getPosition pl j) as [q|] eqn:Hq.
    + rewrite (getDistance_valid o pl i j p q Hp Hq) in H.
      injection H as <-. apply sqrt_not_negative.
    + rewrite getDistance_invalid in H by now right. discriminate.
  - rewrite getDistance_invalid in H by now left. discriminate.
Qed.

Lemma getDistance_never_negative_witness :
  PositionsList.getDistance sqrt_of_double Cases.five_store 2 0
  = Some (ldouble_of_Z 3) /\
  is_negative (ldouble_of_Z 3) = false.
Proof.
  assert (H : PositionsList.getDistance sqrt_of_double Cases.five_store 2 0
              = Some (ldouble_of_Z 3)) by (vm_compute; reflexivity).
  split; [exact H|].
  exact (getDistance_never_negative sqrt_of_double Cases.five_store 2 0
           (ldouble_of_Z 3) H).
Defined.

(** ** Known positions, again *)

Lemma same_place_here (ax ay az r d : double) :
  ax <> S754_nan -> ay <> S754_nan -> az <> S754_nan ->
  Spec.same_place ax ay az (Signal.make_tuple ax ay az r d) = true.
Proof.
  intros Hx Hy Hz. unfold Spec.same_place, deqb.
  cbn [Signal.get0 Signal.get1 Signal.get2].
  now rewrite !SFeqb_refl.
Qed.

Lemma SFeqb_nan_r (v : spec_float) : SFeqb v S754_nan = false.
Proof. now destruct v. Qed.

Lemma same_place_nan (ax ay az : double) (it : Signal.tuple5) :
  ax = S754_nan \/ ay = S754_nan \/ az = S754_nan ->
  Spec.same_place ax ay az it = false.
Proof.
  unfold Spec.same_place, deqb.
  intros [H|[H|H]]; subst; rewrite SFeqb_nan_r.
  - reflexivity.
  - now rewrite andb_false_r.
  - now rewrite andb_false_r.
Qed.

(** A ground station added at coordinates that are numbers is known
    afterwards, whichever [addGroundStation] added it; a position of which
    one coordinate is NaN is never known, not even when a ground station was
    added there; and no position is known to a new signal. *)
Theorem positionKnown_after_addGroundStation :
  forall (sg : Signal.Signal) (ax ay az : double),
    (ax <> S754_nan -> ay <> S754_nan -> az <> S754_nan ->
     (forall ar : double,
         Signal.positionKnown (Signal.addGroundStation sg ax ay az ar)
           ax ay az = true) /\
     (forall (at0 : ldouble) (adt aDelay : double),
         Signal.positionKnown
           (Signal.addGroundStation_dt sg ax ay az at0 adt aDelay)
           ax ay az = true)) /\
    (ax = S754_nan \/ ay = S754_nan \/ az = S754_nan ->
     Signal.positionKnown sg ax ay az = false) /\
    Signal.positionKnown
      (Signal.Signal_ (Signal.mSatId sg) (Signal.mTimestamp sg)) ax ay az
    = false.
Proof.
  intros sg ax ay az. split; [|split; [|reflexivity]].
  - intros Hx Hy Hz. split; intros; rewrite positionKnown_existsb;
      unfold Signal.addGroundStation, Signal.addGroundStation_dt;
      cbn [Signal.push_back Signal.mGroundStations];
      rewrite existsb_app; cbn [existsb];
      rewrite same_place_here by assumption;
      now rewrite orb_true_r.
  - intros H. rewrite positionKnown_existsb.
    induction (Signal.mGroundStations sg) as [|it l IH]; [reflexivity|].
    cbn [existsb]. now rewrite same_place_nan, IH.
Qed.

Lemma positionKnown_after_addGroundStation_witness :
  Signal.positionKnown
    (Signal.addGroundStation Cases.slow_signal (double_of_Z 1)
       (double_of_Z 2) (double_of_Z 3) Cases.d0)
    (double_of_Z 1) (double_of_Z 2) (double_of_Z 3) = true /\
  Signal.positionKnown
    (Signal.addGroundStation Cases.slow_signal S754_nan Cases.d0 Cases.d0
       Cases.d0)
    S754_nan Cases.d0 Cases.d0 = false.
Proof.
  split.
  - apply (proj1 (positionKnown_after_addGroundStation Cases.slow_signal
                    (double_of_Z 1) (double_of_Z 2) (double_of_Z 3)));
      vm_compute; discriminate.
  - apply (proj1 (proj2 (positionKnown_after_addGroundStation
                           (Signal.addGroundStation Cases.slow_signal
                              S754_nan Cases.d0 Cases.d0 Cases.d0)
                           S754_nan Cases.d0 Cases.d0))).
    now left.
Defined.

(** ** Witnesses on the signal of delays 30 and 70 *)

Lemma quick_signal_report :
  Spec.delay_report (Signal.printDelayStats Cases.quick_signal)
    [double_of_Z 30; double_of_Z 70].
Proof. exact (Spec.report_of_Signal Cases.quick_signal). Qed.

Lemma printDelayStats_extremes_with_initial_values_witness :
  dleb (stats_min (Signal.printDelayStats Cases.quick_signal))
    (double_of_Z 100) = true /\
  dleb (double_of_Z 0)
    (stats_max (Signal.printDelayStats Cases.quick_signal)) = true.
Proof.
  destruct (printDelayStats_extremes_with_initial_values _ _
              quick_signal_report) as (_ & L & _ & U & _).
  split; [exact L | exact U].
Defined.

Lemma printDelayStats_extremes_in_range_witness :
  (exists d, In d [double_of_Z 30; double_of_Z 70]
             /\ deqb d (stats_min (Signal.printDelayStats Cases.quick_signal))
                = true) /\
  (exists d, In d [double_of_Z 30; double_of_Z 70]
             /\ deqb d (stats_max (Signal.printDelayStats Cases.quick_signal))
                = true).
Proof.
  destruct (printDelayStats_extremes_in_range _ _ quick_signal_report)
    as [Lo Hi].
  split.
  - apply Lo. exists (double_of_Z 30). split; [now left | reflexivity].
  - apply Hi. exists (double_of_Z 30). split; [now left | reflexivity].
Defined.

Lemma convertStationToSignal_hands_over_ground_stations_witness :
  Forall (fun it => dvalid (Signal.get3 it) = true)
    (Signal.mGroundStations Cases.quick_signal) /\
  map Spec.station_view
    (Stations.mStations
       (Signal.convertStationToSignal Cases.raw0 Cases.quick_signal
          Cases.slow_stations))
  = map Spec.station_view (Stations.mStations Cases.slow_stations)
    ++ Signal.mGroundStations Cases.quick_signal.
Proof.
  assert (V : Forall (fun it => dvalid (Signal.get3 it) = true)
                (Signal.mGroundStations Cases.quick_signal))
    by (repeat constructor).
  split; [exact V|].
  exact (convertStationToSignal_hands_over_ground_stations Cases.raw0
           Cases.quick_signal Cases.slow_stations V).
Defined.

(** ** The average of one candidate *)

Lemma div_eucl_mul (a b : Z) : 0 < b -> Z.div_eucl (a * b) b = (a, 0).
Proof.
  intros Hb. destruct (Z.div_eucl (a * b) b) as [q r] eqn:E.
  assert (Q : q = a * b / b) by (unfold Z.div; now rewrite E).
  assert (R : r = (a * b) mod b) by (unfold Z.modulo; now rewrite E).
  rewrite Z.div_mul in Q by lia. rewrite Z.mod_mul in R by lia.
  now subst.
Qed.

(** Dividing by one changes nothing. *)
Lemma ldiv_one (v : ldouble) :
  lvalid v = true -> ldiv v (ldouble_of_Z 1) = v.
Proof.
  intros V. unfold ldiv.
  replace (ldouble_of_Z 1)
    with (S754_finite false 9223372036854775808 (-63))
    by (vm_compute; reflexivity).
  destruct v as [s|s| |s m e]; try (destruct s; reflexivity);
    try reflexivity.
  unfold lvalid in V. cbn [valid_binary] in V. unfold bounded in V.
  apply andb_prop in V as [C B]. apply Z.leb_le in B.
  pose proof C as C'. unfold canonical_mantissa in C'.
  apply Z.eqb_eq in C'.
  cbn [SFdiv]. rewrite xorb_false_r.
  unfold SFdiv_core_binary. cbn [Zdigits2].
  change (digits2_pos 9223372036854775808) with 64%positive.
  set (e' := Z.min _ _).
  assert (He' : (e' = e - 1 /\ e' < e) \/ e' = e).
  { unfold e'. unfold fexp, emin, lprec, lemax in *. lia. }
  change (new_location (Zpos 9223372036854775808) 0) with loc_Exact.
  destruct He' as [[He' _]|He']; rewrite He'.
  - replace (e - -63 - (e - 1)) with 64 by lia.
    rewrite Z.shiftl_mul_pow2 by lia.
    replace (Zpos m * 2 ^ 64)
      with (Zpos (xO m) * Zpos 9223372036854775808) by lia.
    rewrite div_eucl_mul by lia.
    change (Zpos (xO m)) with (Zpos (Pos.iter xO m 1)).
    now apply binary_round_aux_shifted.
  - replace (e - -63 - e) with 63 by lia.
    rewrite Z.shiftl_mul_pow2 by lia.
    change (2 ^ 63) with (Zpos 9223372036854775808).
    rewrite div_eucl_mul by lia.
    now apply binary_round_aux_canonical.
Qed.

Lemma ladd_zero_l (v : ldouble) :
  v <> S754_zero true -> ladd (ldouble_of_Z 0) v = v.
Proof.
  intros H. destruct v as [s|s| |s m e]; try reflexivity.
  destruct s; [now contradiction H | reflexivity].
Qed.

(** [printAveragePosition] on an empty store divides nothing and writes
    three zeros; on a store of one candidate it writes the coordinates of
    that candidate (those that are [-0] are written as [0]). *)
Theorem printAveragePosition_of_one_candidate :
  PositionsList.printAveragePosition PositionsList.PositionsList_
  = (ldouble_of_Z 0, ldouble_of_Z 0, ldouble_of_Z 0) /\
  (forall p : PositionsList.Position,
      lvalid (PositionsList.p0 p) = true ->
      lvalid (PositionsList.p1 p) = true ->
      lvalid (PositionsList.p2 p) = true ->
      PositionsList.printAveragePosition (PositionsList.PositionsList_of p)
      = (ladd (ldouble_of_Z 0) (PositionsList.p0 p),
         ladd (ldouble_of_Z 0) (PositionsList.p1 p),
         ladd (ldouble_of_Z 0) (PositionsList.p2 p))) /\
  (forall v : ldouble,
      v <> S754_zero true -> ladd (ldouble_of_Z 0) v = v).
Proof.
  split; [reflexivity|]. split; [|apply ladd_zero_l].
  intros p V0 V1 V2.
  unfold PositionsList.printAveragePosition, PositionsList.PositionsList_of.
  cbn [PositionsList.mPositions length fold_left].
  change (int_of_size 1) with 1.
  unfold PositionsList.average_step.
  now rewrite !ldiv_one.
Qed.

Lemma printAveragePosition_of_one_candidate_witness :
  lvalid (ldouble_of_Z 4) = true /\ lvalid Cases.l0 = true /\
  PositionsList.printAveragePosition
    (PositionsList.PositionsList_of (Cases.on_axis 4))
  = (ldouble_of_Z 4, Cases.l0, Cases.l0).
Proof.
  split; [reflexivity|]. split; [reflexivity|].
  exact (proj1 (proj2 printAveragePosition_of_one_candidate)
           (Cases.on_axis 4) eq_refl eq_refl eq_refl).
Defined.

(** ** The sign of a range *)

Section FloatSign.

Variables prec emax : Z.

Lemma binary_round_aux_not_positive (m e : Z) (l : location) :
  is_positive (binary_round_aux prec emax true m e l) = false.
Proof.
  unfold binary_round_aux.
  destruct (shr_fexp prec emax m e l) as [mrs' e'].
  destruct (shr_fexp prec emax _ e' loc_Exact) as [mrs'' e''].
  destruct (shr_m mrs''); try reflexivity.
  destruct (e'' <=? emax - prec); reflexivity.
Qed.

Lemma binary_round_not_positive (m : positive) (e : Z) :
  is_positive (binary_round prec emax true m e) = false.
Proof.
  unfold binary_round.
  destruct (shl_align m e _). apply binary_round_aux_not_positive.
Qed.

Lemma binary_normalize_not_positive (m e : Z) :
  m <= 0 -> is_positive (binary_normalize prec emax m e false) = false.
Proof.
  intros H. destruct m as [|p|p]; try lia.
  - reflexivity.
  - apply binary_round_not_positive.
Qed.

(** [a - b] is positive when [b - a] is negative, and then only. *)
Lemma SFsub_positive_swap (a b : spec_float) :
  is_positive (SFsub prec emax a b) = is_negative (SFsub prec emax b a).
Proof.
  destruct a as [sa|sa| |sa ma ea], b as [sb|sb| |sb mb eb];
    try (destruct sa, sb; reflexivity); try (destruct sa; reflexivity);
    try (destruct sb; reflexivity); try reflexivity.
  unfold SFsub. rewrite (Z.min_comm eb ea).
  set (ez := Z.min ea eb).
  set (A := cond_Zopp sa (Zpos (fst (shl_align ma ea ez)))).
  set (B := cond_Zopp sb (Zpos (fst (shl_align mb eb ez)))).
  replace (B - A) with (- (A - B)) by lia.
  destruct (A - B) as [|p|p]; cbn [Z.opp binary_normalize].
  - reflexivity.
  - unfold binary_round. destruct (shl_align p ez _) as [mz ez'].
    unfold binary_round_aux.
    destruct (shr_fexp prec emax (Zpos mz) ez' loc_Exact) as [mrs' e'].
    destruct (shr_fexp prec emax _ e' loc_Exact) as [mrs'' e''].
    destruct (shr_m mrs''); try reflexivity.
    destruct (e'' <=? emax - prec); reflexivity.
  - unfold binary_round. destruct (shl_align p ez _) as [mz ez'].
    unfold binary_round_aux.
    destruct (shr_fexp prec emax (Zpos mz) ez' loc_Exact) as [mrs' e'].
    destruct (shr_fexp prec emax _ e' loc_Exact) as [mrs'' e''].
    destruct (shr_m mrs''); try reflexivity.
    destruct (e'' <=? emax - prec); reflexivity.
Qed.

Lemma SFmul_not_positive (u : spec_float) (m : positive) (e : Z) :
  is_positive u = false ->
  is_positive (SFmul prec emax u (S754_finite false m e)) = false.
Proof.
  destruct u as [s|s| |s mu eu]; try destruct s;
    try reflexivity; try (intros H; cbv in H; discriminate H).
  intros _. cbn [SFmul xorb]. apply binary_round_aux_not_positive.
Qed.

Lemma SFconv_not_positive (u : spec_float) :
  is_positive u = false -> is_positive (SFconv prec emax u) = false.
Proof.
  destruct u as [s|s| |s mu eu]; try destruct s;
    try (intros H; exact H); try (intros H; cbv in H; discriminate H).
  intros _. cbn [SFconv]. apply binary_round_not_positive.
Qed.

End FloatSign.

(** The range that [setR] stores is never positive when the receive time
    is not after the send time, [t <= t0]: [0 < range] is false.  The range
    is negative, a zero or the negative infinity, or NaN when both times
    are the same infinity. *)
Theorem setR_range_not_positive :
  forall (s : Station.Station) (aT0 : ldouble),
    lvalid (Station.t s) = true -> lvalid aT0 = true ->
    lleb (Station.t s) aT0 = true ->
    is_positive (Station.getR (Station.setR s aT0)) = false.
Proof.
  intros s aT0 Vt V0 Hle.
  unfold Station.getR, Station.setR. cbn [Station.r].
  unfold double_of_ldouble. apply SFconv_not_positive.
  replace (ldouble_of_double Station.clight)
    with (S754_finite false 10300790421579628544 (-35))
    by (vm_compute; reflexivity).
  unfold lmul. apply SFmul_not_positive.
  unfold lsub. rewrite SFsub_positive_swap.
  now apply SFsub_not_negative.
Qed.

Lemma setR_range_not_positive_witness :
  lvalid (Station.t Cases.early_station) = true /\
  lvalid (ldouble_of_Z 2) = true /\
  lleb (Station.t Cases.early_station) (ldouble_of_Z 2) = true /\
  is_positive
    (Station.getR (Station.setR Cases.early_station (ldouble_of_Z 2)))
  = false.
Proof.
  split; [reflexivity|]. split; [reflexivity|]. split; [reflexivity|].
  apply (setR_range_not_positive Cases.early_station (ldouble_of_Z 2));
    reflexivity.
Defined.

(** Both times the positive infinity: [t <= t0] holds and the range that
    is stored is NaN. *)
Example setR_range_of_equal_infinities :
  let s := Station.Station_at Cases.raw0 Cases.d0 Cases.d0 Cases.d0
             (S754_infinity false) in
  lvalid (Station.t s) = true /\
  lleb (Station.t s) (S754_infinity false) = true /\
  Station.getR (Station.setR s (S754_infinity false)) = S754_nan.
Proof. vm_compute. repeat split. Qed.

(** The range that [addGroundStation] computes from a time difference has
    the sign of that difference: it is not negative when the difference is
    not, and not positive when the difference is not. *)
Theorem addGroundStation_range_sign :
  forall (sg : Signal.Signal) (ax ay az : double) (at0 : ldouble)
         (adt aDelay : double),
  exists r,
    Signal.mGroundStations
      (Signal.addGroundStation_dt sg ax ay az at0 adt aDelay)
    = Signal.mGroundStations sg ++ [Signal.make_tuple ax ay az r aDelay] /\
    (is_negative adt = false -> is_negative r = false) /\
    (is_positive adt = false -> is_positive r = false).
Proof.
  intros. eexists. split; [reflexivity|].
  unfold dmul. rewrite SFmul_comm.
  replace Signal.clight with (S754_finite false 5029682823036928 (-24))
    by (vm_compute; reflexivity).
  split; intros H.
  - now apply SFmul_not_negative.
  - now apply SFmul_not_positive.
Qed.

Lemma addGroundStation_range_sign_witness :
  is_negative (double_of_Z 2) = false /\
  exists r,
    Signal.mGroundStations Cases.quick_signal
    = Signal.mGroundStations
        (Signal.addGroundStation_dt (Signal.Signal_ 1 Cases.l0) Cases.d0
           Cases.d0 Cases.d0 Cases.l0 (double_of_Z 1) (double_of_Z 30))
      ++ [Signal.make_tuple (double_of_Z 1) Cases.d0 Cases.d0 r
            (double_of_Z 70)] /\
    is_negative r = false.
Proof.
  split; [reflexivity|].
  destruct (addGroundStation_range_sign
              (Signal.addGroundStation_dt (Signal.Signal_ 1 Cases.l0)
                 Cases.d0 Cases.d0 Cases.d0 Cases.l0 (double_of_Z 1)
                 (double_of_Z 30))
              (double_of_Z 1) Cases.d0 Cases.d0 Cases.l0 (double_of_Z 2)
              (double_of_Z 70)) as (r & E & N & _).
  exists r. split; [exact E|]. apply N. reflexivity.
Defined.

(** * The average position, up to rounding *)

(** ** Rounding: the result is one of the two neighbours *)

Lemma Zdigits2_bounds (m : Z) :
  0 < m -> 2 ^ (Zdigits2 m - 1) <= m < 2 ^ Zdigits2 m.
Proof.
  destruct m as [|p|p]; try lia. intros _. apply digits2_pos_bounds.
Qed.

Lemma Zdigits2_pos (m : Z) : 0 < m -> 0 < Zdigits2 m.
Proof. destruct m as [|p|p]; simpl; lia. Qed.

Lemma Zdigits2_le (m a : Z) : 0 <= a -> 0 <= m < 2 ^ a -> Zdigits2 m <= a.
Proof.
  intros Ha [H0 H]. destruct (Z.eq_dec m 0) as [->|Hm]; [exact Ha|].
  pose proof (Zdigits2_bounds m ltac:(lia)) as [Lo _].
  destruct (Z.le_gt_cases (Zdigits2 m) a) as [L|G]; [exact L|exfalso].
  assert (2 ^ a <= 2 ^ (Zdigits2 m - 1)) by (apply Z.pow_le_mono_r; lia).
  lia.
Qed.

Lemma Zdigits2_ge (m a : Z) : 2 ^ (a - 1) <= m -> 0 < m -> a <= Zdigits2 m.
Proof.
  intros H Hm. pose proof (Zdigits2_bounds m Hm) as [_ Hi].
  destruct (Z.le_gt_cases a (Zdigits2 m)) as [L|G]; [exact L|exfalso].
  assert (2 ^ Zdigits2 m <= 2 ^ (a - 1)).
  { apply Z.pow_le_mono_r; [lia|]. lia. }
  lia.
Qed.

Lemma shr_1_m (mrs : shr_record) :
  0 <= shr_m mrs -> shr_m (shr_1 mrs) = shr_m mrs / 2.
Proof.
  destruct mrs as [m r s]. cbn [shr_m]. intros H.
  destruct m as [|[p|p|]|p]; cbn [shr_1 shr_m]; try lia.
  - reflexivity.
  - rewrite (Pos2Z.inj_xI p).
    apply (Z.div_unique_pos _ _ _ 1); lia.
  - rewrite (Pos2Z.inj_xO p).
    apply (Z.div_unique_pos _ _ _ 0); lia.
  - reflexivity.
Qed.

Lemma shr_iter_m (k : positive) (mrs : shr_record) :
  0 <= shr_m mrs ->
  shr_m (iter_pos shr_1 k mrs) = shr_m mrs / 2 ^ Zpos k.
Proof.
  intros H. rewrite iter_pos_iter.
  induction k as [|k IH] using Pos.peano_ind.
  - simpl Pos.iter. rewrite shr_1_m by exact H. reflexivity.
  - rewrite Pos.iter_succ, shr_1_m.
    + rewrite IH, Pos2Z.inj_succ, Z.pow_succ_r by lia.
      rewrite Z.div_div by lia. f_equal. lia.
    + rewrite IH. apply Z.div_pos; [exact H|]. apply Z.pow_pos_nonneg; lia.
Qed.

Lemma round_nearest_even_bounds (m : Z) (l : location) :
  m <= round_nearest_even m l <= m + 1.
Proof.
  destruct l as [|[| |]]; cbn [round_nearest_even]; try lia.
  destruct (Z.even m); lia.
Qed.

Section FloatRounding.

Variables prec emax : Z.
Hypothesis Hprec : 0 < prec.


(** The first shift of [binary_round_aux]: the integer part of the
    division by [2^k], [k] the number of digits in excess. *)
Lemma shr_fexp_m (mx ex : Z) (lx : location) :
  0 <= mx ->
  let k := Z.max 0 (fexp prec emax (Zdigits2 mx + ex) - ex) in
  shr_m (fst (shr_fexp prec emax mx ex lx)) = mx / 2 ^ k /\
  snd (shr_fexp prec emax mx ex lx) = ex + k.
Proof.
  intros H k. unfold shr_fexp, shr.
  assert (M : shr_m (shr_record_of_loc mx lx) = mx)
    by (destruct lx as [|[| |]]; reflexivity).
  subst k.
  destruct (fexp prec emax (Zdigits2 mx + ex) - ex) as [|p|p] eqn:E;
    cbn [fst snd].
  - rewrite M. change (Z.max 0 0) with 0. rewrite Z.div_1_r. lia.
  - rewrite shr_iter_m by (rewrite M; exact H). rewrite M.
    rewrite Z.max_r by lia. split; reflexivity.
  - rewrite M. rewrite Z.max_l by lia. rewrite Z.div_1_r. lia.
Qed.

Lemma shr_fexp_exact (mx ex : Z) (lx : location) :
  fexp prec emax (Zdigits2 mx + ex) = ex ->
  loc_of_shr_record (fst (shr_fexp prec emax mx ex lx)) = lx.
Proof.
  intros E. unfold shr_fexp. rewrite E, Z.sub_diag. cbn [shr fst].
  destruct lx as [|[| |]]; reflexivity.
Qed.

(** [binary_round_aux] on [mx * 2^ex], when the format has no more digits
    than [mx] at that exponent: the result is zero, an infinity, or
    [m2 * 2^e'] with [e'] the exponent of the format and [m2] the integer
    part of [mx / 2^k] or the next integer. *)
Lemma binary_round_aux_faithful (s : bool) (mx ex : Z) (lx : location) :
  0 <= mx ->
  let e' := fexp prec emax (Zdigits2 mx + ex) in
  ex <= e' ->
  let m1 := mx / 2 ^ (e' - ex) in
  (e' = emin prec emax \/ 2 ^ (prec - 1) <= m1) /\
  exists m2,
    m1 <= m2 <= m1 + 1 /\
    (e' = ex -> lx = loc_Exact -> m2 = m1) /\
    ((binary_round_aux prec emax s mx ex lx = S754_zero s /\ m2 = 0) \/
     (exists m3 e3,
         binary_round_aux prec emax s mx ex lx = S754_finite s m3 e3 /\
         e' <= e3 /\ Zpos m3 * 2 ^ (e3 - e') = m2) \/
     binary_round_aux prec emax s mx ex lx = S754_infinity s).
Proof.
  intros Hmx e' Hk m1.
  assert (He' : emin prec emax <= e') by (unfold e', fexp; lia).
  assert (P2 : 0 < 2 ^ (e' - ex)) by (apply Z.pow_pos_nonneg; lia).
  assert (Hm1 : 0 <= m1) by (apply Z.div_pos; lia).
  (* [m1] has at most [prec] digits *)
  assert (Hm1p : m1 < 2 ^ prec).
  { destruct (Z.eq_dec mx 0) as [->|Hx].
    - unfold m1. rewrite Z.div_0_l by lia. apply Z.pow_pos_nonneg; lia.
    - pose proof (Zdigits2_bounds mx ltac:(lia)) as [_ Hi].
      apply Z.div_lt_upper_bound; [exact P2|].
      rewrite <- Z.pow_add_r by lia.
      eapply Z.lt_le_trans; [exact Hi|].
      apply Z.pow_le_mono_r; [lia|].
      unfold e', fexp. lia. }
  split.
  { (* the magnitude *)
    destruct (Z.eq_dec e' (emin prec emax)) as [E|E]; [now left | right].
    assert (E' : e' = Zdigits2 mx + ex - prec)
      by (unfold e', fexp in *; lia).
    assert (Hx : 0 < mx).
    { destruct (Z.eq_dec mx 0) as [->|]; [|lia].
      simpl in E'. lia. }
    pose proof (Zdigits2_bounds mx Hx) as [Lo _].
    unfold m1. apply Z.div_le_lower_bound; [exact P2|].
    rewrite <- Z.pow_add_r by lia.
    replace (e' - ex + (prec - 1)) with (Zdigits2 mx - 1) by lia.
    exact Lo. }
  unfold binary_round_aux.
  destruct (shr_fexp_m mx ex lx Hmx) as [S1 S2].
  fold e' in S1, S2. rewrite Z.max_r in S1, S2 by lia.
  pose proof (shr_fexp_exact mx ex lx) as S3. fold e' in S3.
  destruct (shr_fexp prec emax mx ex lx) as [mrs' e1]. cbn [fst snd] in *.
  replace (ex + (e' - ex)) with e' in S2 by lia. subst e1.
  fold m1 in S1. rewrite S1.
  set (m2 := round_nearest_even m1 (loc_of_shr_record mrs')).
  pose proof (round_nearest_even_bounds m1 (loc_of_shr_record mrs')) as B2.
  fold m2 in B2.
  exists m2. split; [exact B2|].
  split.
  { intros E L. unfold m2. rewrite (S3 E), L. reflexivity. }
  assert (Hm2 : 0 <= m2) by lia.
  destruct (shr_fexp_m m2 e' loc_Exact Hm2) as [T1 T2].
  destruct (shr_fexp prec emax m2 e' loc_Exact) as [mrs'' e2].
  cbn [fst snd] in *.
  destruct (Z.eq_dec m2 (2 ^ prec)) as [Ep|Np].
  - (* the carry: one more shift, of a power of two *)
    assert (D2 : Zdigits2 m2 = prec + 1).
    { apply Z.le_antisymm.
      - apply Zdigits2_le; [lia|]. rewrite Ep. split; [lia|].
        apply Z.pow_lt_mono_r; lia.
      - apply Zdigits2_ge; [|lia].
        replace (prec + 1 - 1) with prec by lia. lia. }
    rewrite D2 in T1, T2.
    replace (fexp prec emax (prec + 1 + e') - e') with 1 in T1, T2
      by (unfold fexp; lia).
    rewrite Z.max_r in T1, T2 by lia.
    change (2 ^ 1) with 2 in T1.
    assert (H2p : 2 ^ prec = 2 * 2 ^ (prec - 1)).
    { replace prec with (Z.succ (prec - 1)) at 1 by lia.
      now rewrite Z.pow_succ_r by lia. }
    assert (H3 : shr_m mrs'' = 2 ^ (prec - 1)).
    { rewrite T1, Ep, H2p. rewrite Z.mul_comm, Z.div_mul; lia. }
    assert (P3 : 0 < 2 ^ (prec - 1)) by (apply Z.pow_pos_nonneg; lia).
    rewrite H3. destruct (2 ^ (prec - 1)) as [|p3|p3] eqn:E3; try lia.
    destruct (e2 <=? emax - prec); [|now right; right].
    right; left. exists p3, e2. split; [reflexivity|]. split; [lia|].
    rewrite T2. replace (e' + 1 - e') with 1 by lia.
    change (2 ^ 1) with 2. lia.
  - (* no other shift *)
    assert (D2 : Zdigits2 m2 <= prec) by (apply Zdigits2_le; lia).
    assert (K2 : fexp prec emax (Zdigits2 m2 + e') - e' <= 0)
      by (unfold fexp; lia).
    rewrite Z.max_l in T1, T2 by lia.
    rewrite Z.div_1_r in T1. rewrite T1.
    destruct m2 as [|p2|p2] eqn:E2; try lia.
    + now left.
    + destruct (e2 <=? emax - prec); [|now right; right].
      right; left. exists p2, e2. split; [reflexivity|]. split; [lia|].
      replace (e2 - e') with 0 by lia. lia.
Qed.

End FloatRounding.

Lemma pow2_split (a b c : Z) :
  c <= b <= a -> 2 ^ (a - c) = 2 ^ (a - b) * 2 ^ (b - c).
Proof.
  intros H. rewrite <- Z.pow_add_r by lia. f_equal. lia.
Qed.

Lemma abs_cond_Zopp_sub (s : bool) (a b : Z) :
  Z.abs (cond_Zopp s a - cond_Zopp s b) = Z.abs (a - b).
Proof. destruct s; simpl; lia. Qed.

Section FloatSum.

Variables prec emax : Z.
Hypothesis Hprec : 0 < prec.


(** Rounding [p * 2^e] to the format: the error is at most the [2^(1-prec)]
    part of the number, and none when the number is of the format. *)
Lemma binary_round_faithful (s : bool) (p : positive) (e : Z) :
  emin prec emax <= e ->
  is_finite (binary_round prec emax s p e) = true ->
  SFaligned prec emax (binary_round prec emax s p e) /\
  2 ^ (prec - 1)
  * Z.abs (SFunits prec emax (binary_round prec emax s p e)
           - cond_Zopp s (Zpos p * 2 ^ (e - emin prec emax)))
  <= Zpos p * 2 ^ (e - emin prec emax).
Proof.
  intros He. unfold binary_round.
  set (f := fexp prec emax (Zpos (digits2_pos p) + e)).
  assert (Hf0 : emin prec emax <= f) by (unfold f, fexp; lia).
  assert (Pp : 0 < 2 ^ (prec - 1)) by (apply Z.pow_pos_nonneg; lia).
  destruct (Z.le_gt_cases f e) as [Hf|Hf].
  - (* the number is of the format *)
    destruct (shl_align_canonical prec emax p e f eq_refl Hf)
      as (E1 & E2 & E3).
    destruct (shl_align p e f) as [mz ez]. cbn [fst snd] in *. subst ez.
    unfold canonical_mantissa in E2. apply Z.eqb_eq in E2.
    pose proof (binary_round_aux_faithful prec emax Hprec s (Zpos mz) f
                  loc_Exact ltac:(lia)) as R.
    cbv zeta in R. cbn [Zdigits2] in R. rewrite E2, Z.sub_diag in R.
    specialize (R ltac:(lia)). change (2 ^ 0) with 1 in R.
    rewrite Z.div_1_r in R.
    destruct R as (_ & m2 & B & Ex & Res).
    specialize (Ex eq_refl eq_refl). subst m2.
    destruct Res as [[_ Z0]|[(m3 & e3 & -> & L3 & V3)| ->]];
      [lia | | discriminate].
    intros _. split; [cbn [SFaligned]; lia|].
    cbn [SFunits]. rewrite abs_cond_Zopp_sub.
    rewrite (pow2_split e3 f (emin prec emax)) by lia.
    rewrite (pow2_split e f (emin prec emax)) by lia.
    rewrite !Z.mul_assoc, V3, E3.
    rewrite Z.sub_diag. simpl Z.abs. rewrite Z.mul_0_r.
    apply Z.mul_nonneg_nonneg; [|apply Z.pow_nonneg; lia].
    apply Z.mul_nonneg_nonneg; [lia | apply Z.pow_nonneg; lia].
  - (* digits in excess *)
    assert (SA : shl_align p e f = (p, e)).
    { unfold shl_align. destruct (f - e) eqn:E; try lia; reflexivity. }
    rewrite SA.
    pose proof (binary_round_aux_faithful prec emax Hprec s (Zpos p) e
                  loc_Exact ltac:(lia)) as R.
    cbv zeta in R. cbn [Zdigits2] in R. fold f in R.
    specialize (R ltac:(lia)).
    set (k := f - e) in *.
    assert (Pk : 0 < 2 ^ k) by (apply Z.pow_pos_nonneg; lia).
    set (m1 := Zpos p / 2 ^ k) in *.
    destruct R as (Mag & m2 & B & _ & Res).
    destruct Mag as [Mag|Mag]; [lia|].
    pose proof (Z.div_mod (Zpos p) (2 ^ k) ltac:(lia)) as DM.
    pose proof (Z.mod_pos_bound (Zpos p) (2 ^ k) Pk) as MB.
    fold m1 in DM.
    destruct Res as [[_ Z0]|[(m3 & e3 & -> & L3 & V3)| ->]];
      [lia | | discriminate].
    intros _. split; [cbn [SFaligned]; lia|].
    cbn [SFunits]. rewrite abs_cond_Zopp_sub.
    rewrite (pow2_split e3 f (emin prec emax)) by lia.
    rewrite (pow2_split f e (emin prec emax)) by lia.
    fold k. rewrite !Z.mul_assoc, V3.
    assert (Pe : 0 < 2 ^ (e - emin prec emax)) by (apply Z.pow_pos_nonneg; lia).
    replace (m2 * 2 ^ k * 2 ^ (e - emin prec emax)
             - Zpos p * 2 ^ (e - emin prec emax))
      with ((m2 * 2 ^ k - Zpos p) * 2 ^ (e - emin prec emax)) by ring.
    rewrite Z.abs_mul, (Z.abs_eq (2 ^ (e - emin prec emax))) by lia.
    rewrite Z.mul_assoc. apply Z.mul_le_mono_nonneg_r; [lia|].
    assert (A : Z.abs (m2 * 2 ^ k - Zpos p) <= 2 ^ k) by nia.
    assert (A2 : 2 ^ (prec - 1) * 2 ^ k <= Zpos p) by nia.
    nia.
Qed.

Lemma cond_Zopp_mul (s : bool) (a c : Z) :
  cond_Zopp s (a * c) = cond_Zopp s a * c.
Proof. destruct s; simpl; lia. Qed.

(** A sum that is finite has finite terms. *)
Lemma SFadd_finite_inv (a b : spec_float) :
  is_finite (SFadd prec emax a b) = true ->
  is_finite a = true /\ is_finite b = true.
Proof.
  destruct a as [sa|sa| |sa ma ea], b as [sb|sb| |sb mb eb];
    try (split; reflexivity); try discriminate;
    try (destruct sa, sb; discriminate).
Qed.

(** The sum of two numbers of the format: the error is at most the
    [2^(1-prec)] part of the exact sum. *)
Lemma SFadd_faithful (a b : spec_float) :
  SFaligned prec emax a -> SFaligned prec emax b ->
  is_finite (SFadd prec emax a b) = true ->
  SFaligned prec emax (SFadd prec emax a b) /\
  2 ^ (prec - 1)
  * Z.abs (SFunits prec emax (SFadd prec emax a b)
           - (SFunits prec emax a + SFunits prec emax b))
  <= Z.abs (SFunits prec emax a + SFunits prec emax b).
Proof.
  intros Aa Ab.
  destruct a as [sa|sa| |sa ma ea], b as [sb|sb| |sb mb eb];
    try discriminate; try (destruct sa, sb; discriminate).
  - intros _. split; [now destruct sa, sb|].
    destruct sa, sb; simpl; lia.
  - intros _. split; [exact Ab|]. cbn [SFadd SFunits].
    rewrite Z.add_0_l, Z.sub_diag. simpl Z.abs at 1. lia.
  - intros _. split; [exact Aa|]. cbn [SFadd SFunits].
    rewrite Z.add_0_r, Z.sub_diag. simpl Z.abs at 1. lia.
  - cbn [SFaligned] in Aa, Ab.
    unfold SFadd. set (ez := Z.min ea eb).
    rewrite !shl_align_value by lia.
    set (M := cond_Zopp sa (Zpos ma * 2 ^ (ea - ez))
              + cond_Zopp sb (Zpos mb * 2 ^ (eb - ez))).
    assert (T : SFunits prec emax (S754_finite sa ma ea)
                + SFunits prec emax (S754_finite sb mb eb)
                = M * 2 ^ (ez - emin prec emax)).
    { cbn [SFunits]. unfold M.
      rewrite (pow2_split ea ez (emin prec emax)),
        (pow2_split eb ez (emin prec emax)) by lia.
      rewrite !Z.mul_assoc, !cond_Zopp_mul. ring. }
    rewrite T.
    assert (Pe : 0 < 2 ^ (ez - emin prec emax))
      by (apply Z.pow_pos_nonneg; lia).
    destruct M as [|p|p] eqn:EM; cbn [binary_normalize].
    + intros _. split; [exact I|]. simpl. lia.
    + intros F.
      destruct (binary_round_faithful false p ez ltac:(lia) F) as [A B].
      split; [exact A|]. cbn [cond_Zopp] in B.
      rewrite (Z.abs_eq (Zpos p * _)) by lia. exact B.
    + intros F.
      destruct (binary_round_faithful true p ez ltac:(lia) F) as [A B].
      split; [exact A|]. cbn [cond_Zopp] in B.
      replace (Zneg p * 2 ^ (ez - emin prec emax))
        with (- (Zpos p * 2 ^ (ez - emin prec emax))) by lia.
      rewrite Z.abs_opp, (Z.abs_eq (Zpos p * _)) by lia. exact B.
Qed.

End FloatSum.

Lemma faithful_signed (s : bool) (P k R X : Z) :
  0 <= X ->
  P * Z.abs (k * R - X) <= X + P * k ->
  P * Z.abs (k * cond_Zopp s R - cond_Zopp s X)
  <= Z.abs (cond_Zopp s X) + P * k.
Proof.
  intros HX G. destruct s; cbn [cond_Zopp].
  - replace (k * - R - - X) with (- (k * R - X)) by ring.
    rewrite !Z.abs_opp, (Z.abs_eq X) by lia. exact G.
  - rewrite (Z.abs_eq X) by lia. exact G.
Qed.

Section FloatQuotient.

Variables prec emax : Z.
Hypothesis Hprec : 0 < prec.


(** The quotient of a number of the format by a whole number [k], given as
    [m2 * 2^e2]: [k] times the quotient differs from the number by the
    [2^(1-prec)] part of the number at most, or by [k] units. *)
Lemma SFdiv_faithful (x : spec_float) (m2 : positive) (e2 k : Z) :
  valid_binary prec emax x = true ->
  is_finite x = true ->
  e2 <= 0 -> 0 < k -> Zpos m2 = k * 2 ^ (- e2) ->
  is_finite (SFdiv prec emax x (S754_finite false m2 e2)) = true ->
  SFaligned prec emax (SFdiv prec emax x (S754_finite false m2 e2)) /\
  2 ^ (prec - 1)
  * Z.abs (k * SFunits prec emax
                 (SFdiv prec emax x (S754_finite false m2 e2))
           - SFunits prec emax x)
  <= Z.abs (SFunits prec emax x) + 2 ^ (prec - 1) * k.
Proof.
  intros V F He2 Hk Hm2.
  assert (Pp : 0 < 2 ^ (prec - 1)) by (apply Z.pow_pos_nonneg; lia).
  destruct x as [sx|sx| |sx m1 e1]; try discriminate.
  { intros _. split; [exact I|]. simpl. lia. }
  cbn [valid_binary] in V. unfold bounded in V.
  apply andb_prop in V as [C _]. unfold canonical_mantissa in C.
  apply Z.eqb_eq in C.
  cbn [SFdiv]. rewrite xorb_false_r.
  unfold SFdiv_core_binary. cbn [Zdigits2].
  set (d1 := Zpos (digits2_pos m1)) in *.
  set (d2 := Zpos (digits2_pos m2)).
  pose proof (digits2_pos_bounds m1) as [Lo1 _]. fold d1 in Lo1.
  pose proof (digits2_pos_bounds m2) as [_ Hi2]. fold d2 in Hi2.
  assert (Hd1 : d1 <= prec) by (unfold fexp in C; lia).
  assert (Hd2 : 0 < d2) by (unfold d2; lia).
  assert (He1 : emin prec emax <= e1) by (unfold fexp in C; lia).
  set (f := fexp prec emax (d1 + e1 - (d2 + e2))).
  assert (Hf : emin prec emax <= f <= e1 - e2) by (unfold f, fexp; lia).
  rewrite (Z.min_l f) by lia.
  set (s := e1 - e2 - f).
  assert (Hs : 0 <= s) by (unfold s; lia).
  set (m' := match s with
             | 0 => Zpos m1
             | Zpos _ => Z.shiftl (Zpos m1) s
             | Zneg _ => 0
             end).
  assert (Em' : m' = Zpos m1 * 2 ^ s).
  { unfold m'. clear - Hs. clearbody s.
    destruct s as [|ps|ps]; [now rewrite Z.mul_1_r| |lia].
    apply Z.shiftl_mul_pow2. lia. }
  clearbody m'.
  destruct (Z.div_eucl m' (Zpos m2)) as [q r] eqn:DE.
  assert (Q : q = m' / Zpos m2) by (unfold Z.div; now rewrite DE).
  pose proof (Z.div_mod m' (Zpos m2) ltac:(lia)) as DM.
  pose proof (Z.mod_pos_bound m' (Zpos m2) ltac:(lia)) as MB.
  rewrite <- Q in DM. set (r' := m' mod Zpos m2) in *. clearbody r'.
  assert (Ps : 0 < 2 ^ s) by (apply Z.pow_pos_nonneg; lia).
  assert (Hq : 0 <= q) by (rewrite Q; apply Z.div_pos; nia).
  (* the exponent of the format is not below [f] *)
  assert (HK : f <= fexp prec emax (Zdigits2 q + f)).
  { destruct (Z.eq_dec f (emin prec emax)) as [E|E];
      [unfold fexp at 1; lia|].
    assert (E' : f = d1 + e1 - (d2 + e2) - prec)
      by (unfold f, fexp in *; lia).
    assert (Es : s = prec - d1 + d2) by (unfold s; lia).
    assert (Lq : 2 ^ (prec - 1) <= q).
    { rewrite Q. apply Z.div_le_lower_bound; [lia|].
      rewrite Em'.
      assert (2 ^ (prec - 1) * 2 ^ d2 <= 2 ^ (d1 - 1) * 2 ^ s).
      { rewrite <- !Z.pow_add_r by lia. apply Z.pow_le_mono_r; lia. }
      nia. }
    assert (Dq : prec <= Zdigits2 q) by (apply Zdigits2_ge; lia).
    unfold fexp at 1. lia. }
  pose proof (binary_round_aux_faithful prec emax Hprec sx q f
                (new_location (Zpos m2) r) Hq) as R.
  cbv zeta in R. specialize (R HK).
  set (e' := fexp prec emax (Zdigits2 q + f)) in *.
  set (K := e' - f) in *.
  assert (PK : 0 < 2 ^ K) by (apply Z.pow_pos_nonneg; unfold K; lia).
  set (q1 := q / 2 ^ K) in *.
  pose proof (Z.div_mod q (2 ^ K) ltac:(lia)) as DMq.
  pose proof (Z.mod_pos_bound q (2 ^ K) PK) as MBq.
  fold q1 in DMq. set (rq := q mod 2 ^ K) in *. clearbody rq.
  destruct R as (Mag & q2 & B & _ & Res).
  (* the powers of two at hand *)
  set (A := 2 ^ (f - emin prec emax)).
  assert (PA : 0 < A) by (apply Z.pow_pos_nonneg; lia).
  set (W := 2 ^ (- e2)) in *.
  assert (PW : 0 < W) by (apply Z.pow_pos_nonneg; lia).
  set (X := Zpos m1 * 2 ^ (e1 - emin prec emax)).
  assert (EX : X * W = m' * A).
  { unfold X, W, A. rewrite Em'.
    rewrite <- !Z.mul_assoc, <- !Z.pow_add_r by lia.
    f_equal. f_equal. unfold s. lia. }
  assert (HX : 0 <= X).
  { unfold X. apply Z.mul_nonneg_nonneg; [lia|]. apply Z.pow_nonneg. lia. }
  assert (Ee' : 2 ^ (e' - emin prec emax) = 2 ^ K * A).
  { unfold A, K. rewrite <- Z.pow_add_r by lia. f_equal. lia. }
  (* the value of the quotient, whatever its form *)
  assert (G : forall R : Z,
             R = q2 * (2 ^ K * A) ->
             2 ^ (prec - 1) * Z.abs (k * R - X)
             <= X + 2 ^ (prec - 1) * k).
  { intros R ER.
    assert (D1 : Z.abs (k * R - X) * W <= k * W * (2 ^ K * A)).
    { replace (Z.abs (k * R - X) * W) with (Z.abs ((k * R - X) * W))
        by (rewrite Z.abs_mul, (Z.abs_eq W); lia).
      replace ((k * R - X) * W) with ((Zpos m2 * q2 * 2 ^ K - m') * A)
        by (rewrite ER, Hm2; fold W; nia).
      rewrite Z.abs_mul, (Z.abs_eq A) by lia.
      rewrite <- Hm2.
      assert (Z.abs (Zpos m2 * q2 * 2 ^ K - m') <= Zpos m2 * 2 ^ K) by nia.
      nia. }
    assert (D2 : Z.abs (k * R - X) <= k * (2 ^ K * A)) by nia.
    destruct Mag as [Mag|Mag].
    - assert (2 ^ K * A = 1).
      { rewrite <- Ee'. rewrite Mag, Z.sub_diag. reflexivity. }
      nia.
    - assert (D3 : 2 ^ (prec - 1) * (k * W * (2 ^ K * A)) <= X * W).
      { rewrite EX, <- Hm2.
        assert (T1 : 2 ^ (prec - 1) * 2 ^ K <= q) by nia.
        assert (T2 : Zpos m2 * (2 ^ (prec - 1) * 2 ^ K) <= m') by nia.
        replace (2 ^ (prec - 1) * (Zpos m2 * (2 ^ K * A)))
          with (Zpos m2 * (2 ^ (prec - 1) * 2 ^ K) * A) by ring.
        apply Z.mul_le_mono_nonneg_r; lia. }
      assert (D4 : 2 ^ (prec - 1) * (k * (2 ^ K * A)) <= X) by nia.
      nia. }
  destruct Res as [[-> Z0]|[(m3 & e3 & -> & L3 & V3)| ->]];
    [ | | discriminate].
  - intros _. split; [exact I|].
    replace (SFunits prec emax (S754_zero sx)) with (cond_Zopp sx 0)
      by (destruct sx; reflexivity).
    change (SFunits prec emax (S754_finite sx m1 e1)) with (cond_Zopp sx X).
    apply faithful_signed; [exact HX|]. apply G. lia.
  - intros _. split; [cbn [SFaligned]; unfold e' in *; lia|].
    change (SFunits prec emax (S754_finite sx m1 e1)) with (cond_Zopp sx X).
    change (SFunits prec emax (S754_finite sx m3 e3))
      with (cond_Zopp sx (Zpos m3 * 2 ^ (e3 - emin prec emax))).
    apply faithful_signed; [exact HX|]. apply G.
    rewrite (pow2_split e3 e' (emin prec emax)) by (unfold e' in *; lia).
    rewrite Z.mul_assoc, V3, Ee'. reflexivity.
Qed.

End FloatQuotient.

(** One turn of the loop of [printAveragePosition], in whole numbers.  The
    sum so far is [S], of absolute values [B] at most, and [D] is what the
    variable, times [k], is away from it after [j] turns; [E] is what the
    new quotient, times [k], is away from the new coordinate [X], and [Rk]
    what the addition loses, times [k]. *)
Lemma average_error_step (P Half k j B S D X E Rk : Z) :
  P = 2 * Half -> 0 < Half -> 1 <= k -> 0 <= j -> 2 * (j + 1) <= P ->
  Z.abs S <= B ->
  Half * Z.abs D <= (j + 1) * B + P * (j * k) ->
  P * Z.abs E <= Z.abs X + P * k ->
  P * Z.abs Rk <= Z.abs (S + X + D + E) ->
  Half * Z.abs (D + E + Rk) <= (j + 2) * (B + Z.abs X) + P * ((j + 1) * k).
Proof.
  intros HP HH Hk Hj HjP HS HD HE HR.
  assert (HB : 0 <= B) by lia.
  set (d := Z.abs D) in *. set (e := Z.abs E) in *.
  set (r := Z.abs Rk) in *. set (x := Z.abs X) in *.
  assert (Hd0 : 0 <= d) by apply Z.abs_nonneg.
  assert (He0 : 0 <= e) by apply Z.abs_nonneg.
  assert (Hr0 : 0 <= r) by apply Z.abs_nonneg.
  assert (Hx0 : 0 <= x) by apply Z.abs_nonneg.
  assert (T : Z.abs (D + E + Rk) <= d + e + r) by (unfold d, e, r; lia).
  assert (T' : Z.abs (S + X + D + E) <= B + x + d + e)
    by (unfold d, e, x; lia).
  assert (Hd : d <= B + 2 * (j * k)).
  { apply (Z.mul_le_mono_pos_l _ _ Half HH).
    assert ((j + 1) * B <= Half * B) by (apply Z.mul_le_mono_nonneg_r; lia).
    subst P. lia. }
  assert (He : e <= x + k).
  { assert (HPp : 0 < P) by lia.
    apply (Z.mul_le_mono_pos_l _ _ P HPp).
    assert (1 * x <= P * x) by (apply Z.mul_le_mono_nonneg_r; lia).
    lia. }
  assert (Hjk : (2 * j + 1) * k <= P * k)
    by (apply Z.mul_le_mono_nonneg_r; lia).
  assert (G : Half * (d + e + r)
              <= (j + 2) * (B + x) + P * ((j + 1) * k)).
  { subst P. nia. }
  assert (Half * Z.abs (D + E + Rk) <= Half * (d + e + r))
    by (apply Z.mul_le_mono_nonneg_l; lia).
  lia.
Qed.

(** A count of positions, as the [long double] that divides. *)
Lemma ldouble_of_count (k : Z) :
  1 <= k <= INT_MAX ->
  exists m2 e2,
    ldouble_of_Z k = S754_finite false m2 e2 /\
    e2 <= 0 /\ Zpos m2 = k * 2 ^ (- e2).
Proof.
  intros Hk. unfold INT_MAX in Hk.
  destruct k as [|m|m]; try lia.
  unfold ldouble_of_Z, SFofZ. cbn [binary_normalize].
  apply binary_round_integer; [unfold lprec, lemax; lia|].
  unfold lprec. change (2 ^ 64) with 18446744073709551616. lia.
Qed.

Lemma lprec_positive : 0 < lprec.
Proof. reflexivity. Qed.

Section AverageLoop.

Variable f : PositionsList.Position -> ldouble.
Variable k : Z.
Hypothesis Hk : 1 <= k <= INT_MAX.

(** A variable of the loop that ends as a number was a number before. *)
Lemma quotient_sum_finite (ps : list PositionsList.Position)
    (acc : ldouble) :
  is_finite
    (fold_left (fun a p => ladd a (ldiv (f p) (ldouble_of_Z k))) ps acc)
  = true ->
  is_finite acc = true.
Proof.
  revert acc. induction ps as [|p ps IH]; intros acc F; [exact F|].
  cbn [fold_left] in F. apply IH in F.
  now apply (SFadd_finite_inv lprec lemax) in F.
Qed.

(** The loop of [printAveragePosition], from any turn on. *)
Lemma quotient_sum_bound (ps : list PositionsList.Position)
    (acc : ldouble) (j S B : Z) :
  0 <= j -> 2 * (j + Z.of_nat (length ps)) <= 2 ^ 63 ->
  forallb (fun p => Spec.finite_number (f p)) ps = true ->
  SFaligned lprec lemax acc ->
  Z.abs S <= B ->
  2 ^ 62 * Z.abs (k * lunits acc - S) <= (j + 1) * B + 2 ^ 63 * (j * k) ->
  let v := fold_left (fun a p => ladd a (ldiv (f p) (ldouble_of_Z k)))
             ps acc in
  is_finite v = true ->
  SFaligned lprec lemax v /\
  2 ^ 62 * Z.abs (k * lunits v - (S + Spec.units_sum f ps))
  <= (j + Z.of_nat (length ps) + 1) * (B + Spec.units_abs_sum f ps)
     + 2 ^ 63 * ((j + Z.of_nat (length ps)) * k).
Proof.
  revert acc j S B.
  induction ps as [|p ps IH]; intros acc j S B Hj Hn Hps Al HS Inv v Fv.
  - subst v. cbn [fold_left length Spec.units_sum Spec.units_abs_sum
                  fold_right Z.of_nat] in *.
    rewrite !Z.add_0_r. split; [exact Al | exact Inv].
  - subst v. cbn [fold_left] in *.
    cbn [forallb] in Hps. apply andb_prop in Hps as [Hp Hps].
    unfold Spec.finite_number in Hp. apply andb_prop in Hp as [Vp Fp].
    cbn [length] in Hn |- *. rewrite Nat2Z.inj_succ in Hn |- *.
    pose proof (quotient_sum_finite _ _ Fv) as Fa.
    pose proof (SFadd_finite_inv lprec lemax _ _ Fa) as [_ Fq].
    destruct (ldouble_of_count k Hk) as (m2 & e2 & En & He2 & Hm2).
    rewrite En in *.
    destruct (SFdiv_faithful lprec lemax lprec_positive (f p) m2 e2 k
                Vp Fp He2 ltac:(lia) Hm2 Fq) as [Aq Bq].
    destruct (SFadd_faithful lprec lemax lprec_positive acc _ Al Aq Fa)
      as [Aa Ba].
    fold ldiv in Aq, Bq, Aa, Ba, Fa, Fv |- *.
    fold ladd in Aa, Ba, Fa, Fv |- *.
    fold lunits in Bq, Ba.
    set (q := ldiv (f p) (S754_finite false m2 e2)) in *.
    set (acc' := ladd acc q) in *.
    change (2 ^ (lprec - 1)) with (2 ^ 63) in Bq, Ba.
    specialize (IH acc' (j + 1) (S + lunits (f p))
                  (B + Z.abs (lunits (f p)))
                  ltac:(lia) ltac:(lia) Hps Aa ltac:(lia)).
    cbn [Spec.units_sum Spec.units_abs_sum fold_right].
    fold (Spec.units_sum f ps). fold (Spec.units_abs_sum f ps).
    replace (S + (lunits (f p) + Spec.units_sum f ps))
      with (S + lunits (f p) + Spec.units_sum f ps) by ring.
    replace (j + Z.succ (Z.of_nat (length ps)))
      with (j + 1 + Z.of_nat (length ps)) by lia.
    replace (B + (Z.abs (lunits (f p)) + Spec.units_abs_sum f ps))
      with (B + Z.abs (lunits (f p)) + Spec.units_abs_sum f ps) by ring.
    apply IH; [|exact Fv].
    replace (k * lunits acc' - (S + lunits (f p)))
      with ((k * lunits acc - S) + (k * lunits q - lunits (f p))
            + k * (lunits acc' - (lunits acc + lunits q))) by ring.
    replace (j + 1 + 1) with (j + 2) by ring.
    apply (average_error_step (2 ^ 63) (2 ^ 62) k j B S);
      try assumption; try reflexivity; try lia.
    rewrite Z.abs_mul, (Z.abs_eq k) by lia.
    replace (S + lunits (f p) + (k * lunits acc - S)
             + (k * lunits q - lunits (f p)))
      with (k * (lunits acc + lunits q)) by ring.
    rewrite (Z.abs_mul k), (Z.abs_eq k) by lia.
    rewrite Z.mul_assoc, (Z.mul_comm (2 ^ 63) k), <- Z.mul_assoc.
    apply Z.mul_le_mono_nonneg_l; [lia | exact Ba].
Qed.

(** The whole loop, from zero. *)
Lemma quotient_sum_near_centroid (ps : list PositionsList.Position) :
  Z.of_nat (length ps) = k ->
  forallb (fun p => Spec.finite_number (f p)) ps = true ->
  is_finite (Spec.quotient_sum k f ps) = true ->
  Spec.near_centroid k f ps (Spec.quotient_sum k f ps).
Proof.
  intros Hn Hps Fv. unfold Spec.near_centroid.
  pose proof (quotient_sum_bound ps (ldouble_of_Z 0) 0 0 0
                ltac:(lia)) as Q.
  rewrite Hn in Q. cbv zeta in Q. fold (Spec.quotient_sum k f ps) in Q.
  unfold INT_MAX in Hk.
  specialize (Q ltac:(change (2 ^ 63) with 9223372036854775808; lia)
                Hps I ltac:(simpl; lia)
                ltac:(change (lunits (ldouble_of_Z 0)) with 0; lia) Fv).
  rewrite !Z.add_0_l in Q. exact Q.
Qed.

End AverageLoop.

Lemma forallb_finite_position (ps : list PositionsList.Position) :
  forallb Spec.finite_position ps = true ->
  forallb (fun p => Spec.finite_number (PositionsList.p0 p)) ps = true /\
  forallb (fun p => Spec.finite_number (PositionsList.p1 p)) ps = true /\
  forallb (fun p => Spec.finite_number (PositionsList.p2 p)) ps = true.
Proof.
  induction ps as [|p ps IH]; intros H; [now repeat split|].
  cbn [forallb] in *. apply andb_prop in H as [Hp H].
  unfold Spec.finite_position in Hp.
  apply andb_prop in Hp as [Hp H2]. apply andb_prop in Hp as [H0 H1].
  destruct (IH H) as (I0 & I1 & I2).
  rewrite H0, H1, H2, I0, I1, I2. now repeat split.
Qed.

(** C5, up to rounding.  For a store of [n] candidates, with [n] from 1 to
    [INT_MAX], whose coordinates are numbers, each number that
    [printAveragePosition] writes, when it is a number itself, is the sum
    of that coordinate over the stored positions divided by [n], up to
    the rounding of the [n] divisions and [n] additions: it is away from
    that quotient by [(n + 1) * 2^-62] times the mean of the absolute
    values of the coordinate, and [2 * n] times [2^-16445], at most. *)
Theorem printAveragePosition_near_centroid :
  forall pl : PositionsList.PositionsList,
    let ps := PositionsList.mPositions pl in
    let n := Z.of_nat (length ps) in
    let r := PositionsList.printAveragePosition pl in
    1 <= n <= INT_MAX ->
    forallb Spec.finite_position ps = true ->
    (is_finite (fst (fst r)) = true ->
     Spec.near_centroid n PositionsList.p0 ps (fst (fst r))) /\
    (is_finite (snd (fst r)) = true ->
     Spec.near_centroid n PositionsList.p1 ps (snd (fst r))) /\
    (is_finite (snd r) = true ->
     Spec.near_centroid n PositionsList.p2 ps (snd r)).
Proof.
  intros pl ps n r Hn Hps. subst r.
  unfold PositionsList.printAveragePosition. fold ps.
  rewrite int_of_size_small by (fold n; lia). fold n.
  rewrite average_loop. cbn [fst snd].
  destruct (forallb_finite_position ps Hps) as (H0 & H1 & H2).
  split; [|split]; intros F;
    apply (quotient_sum_near_centroid _ n Hn ps eq_refl); assumption.
Qed.

Lemma printAveragePosition_near_centroid_witness :
  (1 <= 5 <= INT_MAX) /\
  forallb Spec.finite_position (PositionsList.mPositions Cases.five_store)
  = true /\
  is_finite (fst (fst (PositionsList.printAveragePosition Cases.five_store)))
  = true /\
  Spec.near_centroid 5 PositionsList.p0
    (PositionsList.mPositions Cases.five_store)
    (fst (fst (PositionsList.printAveragePosition Cases.five_store))).
Proof.
  split; [unfold INT_MAX; lia|].
  split; [vm_compute; reflexivity|].
  split; [vm_compute; reflexivity|].
  apply (proj1 (printAveragePosition_near_centroid Cases.five_store
                  ltac:(unfold INT_MAX; simpl; lia) eq_refl)).
  vm_compute; reflexivity.
Defined.

(** The number written is not always the centroid.  Three candidates of
    first coordinates [3 * 2^64], [3] and [- 3 * 2^64]: their sum is 3 and
    the centroid is at 1, the quotients are [2^64], [1] and [- 2^64], and
    [2^64 + 1] is rounded to [2^64]: the number written is 0 (the sum
    divided by 3 in [long double] arithmetic would be 4/3, rounded).  Two
    candidates of first coordinate [2^-16445], the least positive
    [long double]: each half of it is rounded to 0 and the number written
    is 0, while the centroid is at [2^-16445]. *)
Lemma printAveragePosition_not_the_centroid :
  PositionsList.size Cases.cancelling_store = 3 /\
  Spec.units_sum PositionsList.p0
    (PositionsList.mPositions Cases.cancelling_store)
  = 3 * lunits (ldouble_of_Z 1) /\
  fst (fst (PositionsList.printAveragePosition Cases.cancelling_store))
  = ldouble_of_Z 0 /\
  Spec.centroid_coordinate PositionsList.p0
    (PositionsList.mPositions Cases.cancelling_store)
  = S754_finite false 12297829382473034411 (-63) /\
  3 * lunits
        (fst (fst (PositionsList.printAveragePosition
                     Cases.cancelling_store)))
  <> Spec.units_sum PositionsList.p0
       (PositionsList.mPositions Cases.cancelling_store) /\
  PositionsList.size Cases.least_store = 2 /\
  Spec.units_sum PositionsList.p0
    (PositionsList.mPositions Cases.least_store)
  = 2 * lunits Cases.least /\
  fst (fst (PositionsList.printAveragePosition Cases.least_store))
  = ldouble_of_Z 0 /\
  Spec.centroid_coordinate PositionsList.p0
    (PositionsList.mPositions Cases.least_store)
  = Cases.least /\
  2 * lunits
        (fst (fst (PositionsList.printAveragePosition Cases.least_store)))
  <> Spec.units_sum PositionsList.p0
       (PositionsList.mPositions Cases.least_store).
Proof.
  vm_compute.
  repeat match goal with |- _ /\ _ => split end;
    try reflexivity; discriminate.
Qed.
